(** * js-postgres: statement builder, transaction helper and value decoders

    A shallow embedding of [connection.ts] (the [Connection] class: [insert],
    [update], [delete], [withTx], [addWhereToSQL], [addReturningToSQL]) and of
    [parser.ts] (the decoders and [registerParsers]), with the properties of
    the specification stated over it. *)

From Stdlib Require Import ZArith NArith String Ascii DecimalString DecimalPos Lia.
From stdpp Require Import base list strings gmap.

Local Open Scope string_scope.
Local Open Scope list_scope.
Set Warnings "-register-all".

(** ** JavaScript values and exceptions *)

Module Js.

(** Numbers that are integers, zeros with a sign, infinities or NaN: the only
    numbers [parseInt] produces and the only ones the builder is tried on. *)
Inductive JsNumber : Type :=
| NaN
| Finite (neg : bool) (mag : N)
| Infinite (neg : bool).

Inductive JsVal : Type :=
| JUndefined
| JNull
| JBool (b : bool)
| JNum (n : JsNumber)
| JBigInt (z : Z)
| JStr (s : string)
| JObj (props : list (string * JsVal))
| JArr (elems : list JsVal).

Definition JInt (n : N) : JsVal := JNum (Finite false n).

Inductive Exn : Type :=
| TypeError
| SyntaxError
| Thrown (v : JsVal).

Inductive Outcome (A : Type) : Type :=
| Return (a : A)
| Throw (e : Exn).
Arguments Return {A} a.
Arguments Throw {A} e.

Definition bind {A B} (m : Outcome A) (k : A -> Outcome B) : Outcome B :=
  match m with
  | Return a => k a
  | Throw e => Throw e
  end.

Declare Scope js_scope.
Delimit Scope js_scope with js.
Notation "'do' x <- m ; k" := (bind m (fun x => k))
  (at level 10, x name, m at level 100, k at level 200) : js_scope.

(** [typeof v] *)
Definition typeof (v : JsVal) : string :=
  match v with
  | JUndefined => "undefined"
  | JNull => "object"
  | JBool _ => "boolean"
  | JNum _ => "number"
  | JBigInt _ => "bigint"
  | JStr _ => "string"
  | JObj _ => "object"
  | JArr _ => "object"
  end.

(** Own properties of an object literal are kept in [for ... in] order;
    [o[k]] reads the first binding of [k]. *)
Fixpoint lookup_prop (props : list (string * JsVal)) (k : string) : JsVal :=
  match props with
  | [] => JUndefined
  | (k', v) :: rest => if String.eqb k' k then v else lookup_prop rest k
  end.

Definition own_keys (props : list (string * JsVal)) : list string :=
  map fst props.

(** [v.name]: reading a property of [null] or [undefined] throws a TypeError;
    a missing property reads as [undefined]. The builder only reads [raw],
    [value], [operator] and [betweenUpperValue], which an array or a
    primitive does not have. *)
Definition get_prop (v : JsVal) (name : string) : Outcome JsVal :=
  match v with
  | JUndefined | JNull => Throw TypeError
  | JObj props => Return (lookup_prop props name)
  | JArr elems =>
      if String.eqb name "length" then Return (JInt (N.of_nat (length elems)))
      else Return JUndefined
  | JStr s =>
      if String.eqb name "length" then Return (JInt (N.of_nat (String.length s)))
      else Return JUndefined
  | JBool _ | JNum _ | JBigInt _ => Return JUndefined
  end.

(** [v != null] *)
Definition not_nullish (v : JsVal) : bool :=
  match v with
  | JUndefined | JNull => false
  | _ => true
  end.

(** [v === k] for an integer literal [k] (both zeros are equal to [0]). *)
Definition strict_eq_int (v : JsVal) (k : N) : bool :=
  match v with
  | JNum (Finite neg m) =>
      N.eqb m k && (negb neg || N.eqb m 0)
  | _ => false
  end.

(** [n.toString()] for an array length. *)
Definition toString (n : nat) : string :=
  NilZero.string_of_uint (Nat.to_uint n).

(** [arr.join(sep)] on an array of strings. *)
Definition join (sep : string) (arr : list string) : string :=
  String.concat sep arr.

End Js.

Import Js.
Local Open Scope js_scope.

(** ** The statement builder of [Connection] *)

Module Builder.

Inductive ConflictAction : Type := CNone | CIgnore | CUpdate.

Record ReturningOptions : Type := {
  expression : string;
  as_ : option string
}.

Record InsertOptions : Type := {
  conflictAction : option string;
  conflictKeys : option (list string);
  returning : option (list ReturningOptions)
}.

(** [UpdateOptions] and [DeleteOptions] only carry [returning]. *)
Record UpdateOptions : Type := {
  upd_returning : option (list ReturningOptions)
}.

(** The accumulators of the loop of [insert]. *)
Record InsertAcc : Type := {
  i_params : list JsVal;
  i_columns : list string;
  i_columnValues : list string;
  i_conflictColumns : list string;
  i_upsertColumns : list string
}.

(** The accumulators of the loop of [update]. *)
Record UpdateAcc : Type := {
  u_params : list JsVal;
  u_columnValues : list string
}.

(** The accumulators of the loop of [addWhereToSQL]. *)
Record WhereAcc : Type := {
  w_params : list JsVal;
  w_conditions : list string
}.

(** [WhereConditionOperator] *)
Definition Equal : N := 0.
Definition NotEqual : N := 1.
Definition Less : N := 2.
Definition LessOrEqual : N := 3.
Definition Greater : N := 4.
Definition GreaterOrEqual : N := 5.
Definition Between : N := 6.

(** [typeof v === 'object' && typeof v.raw === 'string']; when it holds the
    text of [v.raw] is handed back, as the code reads it again right after. *)
Definition raw_marker (v : JsVal) : Outcome (option string) :=
  if String.eqb (typeof v) "object" then
    do r <- get_prop v "raw" ;
    match r with
    | JStr s => Return (Some s)
    | _ => Return None
    end
  else Return None.

(** [options!.conflictKeys!.includes(columnName)] *)
Definition conflictKeys_includes (options : option InsertOptions)
    (columnName : string) : Outcome bool :=
  match options with
  | None => Throw TypeError
  | Some o =>
      match conflictKeys o with
      | None => Throw TypeError
      | Some keys => Return (existsb (String.eqb columnName) keys)
      end
  end.

Definition parse_conflictAction (options : option InsertOptions) : ConflictAction :=
  match options with
  | None => CNone
  | Some o =>
      match conflictAction o with
      | Some a =>
          if String.eqb a "update" then CUpdate
          else if String.eqb a "ignore" then CIgnore
          else CNone
      | None => CNone
      end
  end.

Section WithClient.

(** [this.client.escapeIdentifier], supplied by the connection. *)
Variable escapeIdentifier : string -> string.

(** The [switch (conflictAction)] that follows both branches of the loop of
    [insert]; [assignment] is the text pushed on [upsertColumns]. *)
Definition classify_conflict (act : ConflictAction) (options : option InsertOptions)
    (columnName sanitized assignment : string) (acc : InsertAcc) : Outcome InsertAcc :=
  match act with
  | CNone => Return acc
  | CIgnore =>
      do inc <- conflictKeys_includes options columnName ;
      if (inc : bool) then
        Return {| i_params := i_params acc; i_columns := i_columns acc;
                  i_columnValues := i_columnValues acc;
                  i_conflictColumns := i_conflictColumns acc ++ [sanitized];
                  i_upsertColumns := i_upsertColumns acc |}
      else Return acc
  | CUpdate =>
      do inc <- conflictKeys_includes options columnName ;
      if (inc : bool) then
        Return {| i_params := i_params acc; i_columns := i_columns acc;
                  i_columnValues := i_columnValues acc;
                  i_conflictColumns := i_conflictColumns acc ++ [sanitized];
                  i_upsertColumns := i_upsertColumns acc |}
      else
        Return {| i_params := i_params acc; i_columns := i_columns acc;
                  i_columnValues := i_columnValues acc;
                  i_conflictColumns := i_conflictColumns acc;
                  i_upsertColumns := i_upsertColumns acc ++ [assignment] |}
  end.

(** One turn of [for (const columnName in values)] in [insert]. *)
Definition insert_step (values : list (string * JsVal)) (act : ConflictAction)
    (options : option InsertOptions) (acc : InsertAcc) (columnName : string)
    : Outcome InsertAcc :=
  let sanitized := escapeIdentifier columnName in
  let v := lookup_prop values columnName in
  let columns' := i_columns acc ++ [sanitized] in
  do raw <- raw_marker v ;
  match raw with
  | None =>
      let params' := i_params acc ++ [v] in
      let placeholder := "$" +:+ toString (length params') in
      classify_conflict act options columnName sanitized
        (sanitized +:+ " = $" +:+ toString (length params'))
        {| i_params := params'; i_columns := columns';
           i_columnValues := i_columnValues acc ++ [placeholder];
           i_conflictColumns := i_conflictColumns acc;
           i_upsertColumns := i_upsertColumns acc |}
  | Some text =>
      classify_conflict act options columnName sanitized
        (sanitized +:+ " = " +:+ text)
        {| i_params := i_params acc; i_columns := columns';
           i_columnValues := i_columnValues acc ++ [text];
           i_conflictColumns := i_conflictColumns acc;
           i_upsertColumns := i_upsertColumns acc |}
  end.

Fixpoint insert_loop (values : list (string * JsVal)) (act : ConflictAction)
    (options : option InsertOptions) (keys : list string) (acc : InsertAcc)
    : Outcome InsertAcc :=
  match keys with
  | [] => Return acc
  | columnName :: rest =>
      do acc' <- insert_step values act options acc columnName ;
      insert_loop values act options rest acc'
  end.

(** [addReturningToSQL]: the pieces pushed on [sql]. *)
Definition returning_expr (item : ReturningOptions) : string :=
  match as_ item with
  | Some a =>
      if String.eqb a EmptyString then expression item
      else expression item +:+ " AS " +:+ escapeIdentifier a
  | None => expression item
  end.

Definition addReturningToSQL (sql : list string)
    (ret : option (list ReturningOptions)) : list string :=
  match ret with
  | Some items => sql ++ [" RETURNING "; join ", " (map returning_expr items)]
  | None => sql
  end.

Definition insert_tail (act : ConflictAction) (acc : InsertAcc) : list string :=
  match act with
  | CIgnore =>
      [") ON CONFLICT ("; join "," (i_conflictColumns acc); ") DO NOTHING"]
  | CUpdate =>
      [") ON CONFLICT ("; join "," (i_conflictColumns acc); ") DO UPDATE SET ";
       join ", " (i_upsertColumns acc)]
  | CNone => [")"]
  end.

Definition empty_insert : InsertAcc :=
  {| i_params := []; i_columns := []; i_columnValues := [];
     i_conflictColumns := []; i_upsertColumns := [] |}.

(** [insert]: the text and the parameters handed to [this.query]. *)
Definition insert (tableName : string) (values : list (string * JsVal))
    (options : option InsertOptions) : Outcome (string * list JsVal) :=
  let act := parse_conflictAction options in
  do acc <- insert_loop values act options (own_keys values) empty_insert ;
  let sql :=
    ["INSERT INTO " +:+ escapeIdentifier tableName +:+ " (";
     join ", " (i_columns acc);
     ") VALUES (";
     join ", " (i_columnValues acc)] ++ insert_tail act acc in
  let sql := addReturningToSQL sql
               (match options with Some o => returning o | None => None end) in
  Return (join EmptyString sql, i_params acc).

(** One turn of [for (const columnName in values)] in [update]. *)
Definition update_step (values : list (string * JsVal)) (acc : UpdateAcc)
    (columnName : string) : Outcome UpdateAcc :=
  let sanitized := escapeIdentifier columnName in
  let v := lookup_prop values columnName in
  do raw <- raw_marker v ;
  match raw with
  | None =>
      let params' := u_params acc ++ [v] in
      Return {| u_params := params';
                u_columnValues := u_columnValues acc ++
                  [sanitized +:+ " = $" +:+ toString (length params')] |}
  | Some text =>
      Return {| u_params := u_params acc;
                u_columnValues := u_columnValues acc ++
                  [sanitized +:+ " = " +:+ text] |}
  end.

Fixpoint update_loop (values : list (string * JsVal)) (keys : list string)
    (acc : UpdateAcc) : Outcome UpdateAcc :=
  match keys with
  | [] => Return acc
  | columnName :: rest =>
      do acc' <- update_step values acc columnName ;
      update_loop values rest acc'
  end.

(** The test guarding the operator dispatch of [addWhereToSQL]:
    [typeof w === "object" && w.value != null && w.operator != null]. *)
Definition is_condition (w : JsVal) : Outcome bool :=
  if String.eqb (typeof w) "object" then
    do value <- get_prop w "value" ;
    if not_nullish value then
      do operator <- get_prop w "operator" ;
      Return (not_nullish operator)
    else Return false
  else Return false.

Definition push_condition (acc : WhereAcc) (cond : string) : WhereAcc :=
  {| w_params := w_params acc; w_conditions := w_conditions acc ++ [cond] |}.

Definition push_param (acc : WhereAcc) (v : JsVal) : WhereAcc :=
  {| w_params := w_params acc ++ [v]; w_conditions := w_conditions acc |}.

(** [switch (w.operator)], entered after [w.value] has been pushed. *)
Definition where_dispatch (sanitized : string) (w : JsVal) (acc : WhereAcc)
    : Outcome WhereAcc :=
  do operator <- get_prop w "operator" ;
  let n := toString (length (w_params acc)) in
  if strict_eq_int operator Equal then
    Return (push_condition acc (sanitized +:+ " = $" +:+ n))
  else if strict_eq_int operator NotEqual then
    Return (push_condition acc (sanitized +:+ " <> $" +:+ n))
  else if strict_eq_int operator Less then
    Return (push_condition acc (sanitized +:+ " < $" +:+ n))
  else if strict_eq_int operator LessOrEqual then
    Return (push_condition acc (sanitized +:+ " <= $" +:+ n))
  else if strict_eq_int operator Greater then
    Return (push_condition acc (sanitized +:+ " > $" +:+ n))
  else if strict_eq_int operator GreaterOrEqual then
    Return (push_condition acc (sanitized +:+ " >= $" +:+ n))
  else if strict_eq_int operator Between then
    do upper <- get_prop w "betweenUpperValue" ;
    let acc' := push_param acc upper in
    Return (push_condition acc'
      (sanitized +:+ " BETWEEN $" +:+ toString (length (w_params acc') - 1) +:+
       " AND $" +:+ toString (length (w_params acc'))))
  else Return acc.

(** One turn of [for (const whereItem in where)]. *)
Definition where_step (where_ : list (string * JsVal)) (acc : WhereAcc)
    (whereItem : string) : Outcome WhereAcc :=
  let sanitized := escapeIdentifier whereItem in
  let w := lookup_prop where_ whereItem in
  do cond <- is_condition w ;
  if (cond : bool) then
    do value <- get_prop w "value" ;
    where_dispatch sanitized w (push_param acc value)
  else
    let acc' := push_param acc w in
    Return (push_condition acc'
      (sanitized +:+ " = $" +:+ toString (length (w_params acc')))).

Fixpoint where_loop (where_ : list (string * JsVal)) (keys : list string)
    (acc : WhereAcc) : Outcome WhereAcc :=
  match keys with
  | [] => Return acc
  | whereItem :: rest =>
      do acc' <- where_step where_ acc whereItem ;
      where_loop where_ rest acc'
  end.

(** [addWhereToSQL]: [sql] and [params] as it leaves them. *)
Definition addWhereToSQL (sql : list string) (params : list JsVal)
    (where_ : option (list (string * JsVal)))
    : Outcome (list string * list JsVal) :=
  match where_ with
  | Some w =>
      do acc <- where_loop w (own_keys w)
                  {| w_params := params; w_conditions := [] |} ;
      Return (sql ++ [" WHERE "; join ", " (w_conditions acc)], w_params acc)
  | None => Return (sql, params)
  end.

Definition upd_returning_of (options : option UpdateOptions)
    : option (list ReturningOptions) :=
  match options with
  | Some o => upd_returning o
  | None => None
  end.

(** [update]: the text and the parameters handed to [this.query]. *)
Definition update (tableName : string) (values : list (string * JsVal))
    (where_ : option (list (string * JsVal))) (options : option UpdateOptions)
    : Outcome (string * list JsVal) :=
  do acc <- update_loop values (own_keys values)
              {| u_params := []; u_columnValues := [] |} ;
  let sql := ["UPDATE " +:+ escapeIdentifier tableName +:+ " SET ";
              join ", " (u_columnValues acc)] in
  do sp <- addWhereToSQL sql (u_params acc) where_ ;
  let sql := addReturningToSQL (fst sp) (upd_returning_of options) in
  Return (join EmptyString sql, snd sp).

(** [delete]: the text and the parameters handed to [this.query]. *)
Definition delete (tableName : string)
    (where_ : option (list (string * JsVal))) (options : option UpdateOptions)
    : Outcome (string * list JsVal) :=
  let sql := ["DELETE FROM " +:+ escapeIdentifier tableName] in
  do sp <- addWhereToSQL sql [] where_ ;
  let sql := addReturningToSQL (fst sp) (upd_returning_of options) in
  Return (join EmptyString sql, snd sp).

End WithClient.

(** The double quote, and an identifier wrapped in a pair of them. *)
Definition dquote : string := String (ascii_of_nat 34) EmptyString.
Definition quoted (s : string) : string := dquote +:+ s +:+ dquote.

Definition condition (value : JsVal) (operator : N) (upper : option JsVal) : JsVal :=
  JObj ([("value", value); ("operator", JInt operator)] ++
        match upper with
        | Some u => [("betweenUpperValue", u)]
        | None => []
        end).

(** A raw-fragment marker [{raw: text}]. *)
Definition raw (txt : string) : JsVal := JObj [("raw", JStr txt)].

(** Inputs the properties are tried on. *)
Definition three_columns : list (string * JsVal) :=
  [("a", JInt 7); ("b", raw "now()"); ("c", JStr "x")].

Definition users_row : list (string * JsVal) :=
  [("id", JInt 1); ("name", JStr "Bo")].

Definition on_conflict (action : string) (keys : list string) : InsertOptions :=
  {| conflictAction := Some action; conflictKeys := Some keys; returning := None |}.

Definition between_10_20 : list (string * JsVal) :=
  [("id", condition (JInt 10) Between (Some (JInt 20)))].

Definition two_conditions : list (string * JsVal) :=
  [("a", JInt 1); ("b", JStr "x")].

(** *** Vocabulary of the properties of the builder *)

(** The text of a raw-fragment marker: an object whose [raw] is a string. *)
Definition raw_text (v : JsVal) : option string :=
  match v with
  | JObj props =>
      match lookup_prop props "raw" with
      | JStr s => Some s
      | _ => None
      end
  | _ => None
  end.

Definition is_bound (v : JsVal) : bool :=
  match raw_text v with
  | Some _ => false
  | None => true
  end.

(** The values of a mapping in the order [for ... in] visits its columns. *)
Definition column_values (values : list (string * JsVal)) : list JsVal :=
  map (lookup_prop values) (own_keys values).

(** The values that are not raw-fragment markers, in order. *)
Definition bound_values (vs : list JsVal) : list JsVal := List.filter is_bound vs.

Definition placeholder (k : nat) : string := "$" +:+ toString k.

(** The entries of a VALUES list when [n] parameters are already bound:
    the text of a marker, or the next placeholder. *)
Fixpoint value_entries (n : nat) (vs : list JsVal) : list string :=
  match vs with
  | [] => []
  | v :: rest =>
      match raw_text v with
      | Some txt => txt :: value_entries n rest
      | None => placeholder (S n) :: value_entries (S n) rest
      end
  end.

(** The entries standing at the columns that are bound, and at the columns
    that are markers. *)
Fixpoint entries_of_bound (vs : list JsVal) (entries : list string) : list string :=
  match vs, entries with
  | v :: vs', e :: es' =>
      if is_bound v then e :: entries_of_bound vs' es' else entries_of_bound vs' es'
  | _, _ => []
  end.

Fixpoint entries_of_raw (vs : list JsVal) (entries : list string) : list string :=
  match vs, entries with
  | v :: vs', e :: es' =>
      if is_bound v then entries_of_raw vs' es' else e :: entries_of_raw vs' es'
  | _, _ => []
  end.

Definition null_free (values : list (string * JsVal)) : Prop :=
  Forall (fun k => lookup_prop values k <> JNull) (own_keys values).

Definition keys_of_options (options : option InsertOptions) : option (list string) :=
  match options with
  | Some o => conflictKeys o
  | None => None
  end.

Definition returning_of (options : option InsertOptions)
    : option (list ReturningOptions) :=
  match options with
  | Some o => returning o
  | None => None
  end.

Definition in_keys (ckeys : list string) (k : string) : bool :=
  existsb (String.eqb k) ckeys.

Section Shapes.

Variable escapeIdentifier : string -> string.

Definition returning_text (ret : option (list ReturningOptions)) : string :=
  match ret with
  | Some items =>
      " RETURNING " +:+ join ", " (map (returning_expr escapeIdentifier) items)
  | None => EmptyString
  end.

(** The columns named by [conflictKeys], escaped, in column order. *)
Definition conflict_columns (ckeys keys : list string) : list string :=
  map escapeIdentifier (List.filter (in_keys ckeys) keys).

(** One assignment [column = entry] per column that [conflictKeys] does not
    name, [entry] being the VALUES entry of that column. *)
Fixpoint upsert_assignments (ckeys keys entries : list string) : list string :=
  match keys, entries with
  | k :: ks, e :: es =>
      if in_keys ckeys k then upsert_assignments ckeys ks es
      else (escapeIdentifier k +:+ " = " +:+ e) :: upsert_assignments ckeys ks es
  | _, _ => []
  end.

(** The assignments [column = entry] of a SET list. *)
Fixpoint set_assignments (keys entries : list string) : list string :=
  match keys, entries with
  | k :: ks, e :: es => (escapeIdentifier k +:+ " = " +:+ e) :: set_assignments ks es
  | _, _ => []
  end.

(** What [insert] leaves in its accumulators after the columns [keys]. *)
Definition insert_acc_after (act : ConflictAction) (ckeys : list string)
    (values : list (string * JsVal)) (keys : list string) (acc : InsertAcc)
    : InsertAcc :=
  let vs := map (lookup_prop values) keys in
  let entries := value_entries (length (i_params acc)) vs in
  {| i_params := i_params acc ++ bound_values vs;
     i_columns := i_columns acc ++ map escapeIdentifier keys;
     i_columnValues := i_columnValues acc ++ entries;
     i_conflictColumns := i_conflictColumns acc ++
       match act with
       | CNone => []
       | _ => conflict_columns ckeys keys
       end;
     i_upsertColumns := i_upsertColumns acc ++
       match act with
       | CUpdate => upsert_assignments ckeys keys entries
       | _ => []
       end |}.

(** What [update] leaves in its accumulators after the columns [keys]. *)
Definition update_acc_after (values : list (string * JsVal)) (keys : list string)
    (acc : UpdateAcc) : UpdateAcc :=
  let vs := map (lookup_prop values) keys in
  {| u_params := u_params acc ++ bound_values vs;
     u_columnValues := u_columnValues acc ++
       set_assignments keys (value_entries (length (u_params acc)) vs) |}.

(** The text that follows the VALUES list. *)
Definition conflict_text (act : ConflictAction) (ckeys keys entries : list string)
    : string :=
  match act with
  | CNone => ")"
  | CIgnore =>
      ") ON CONFLICT (" +:+ join "," (conflict_columns ckeys keys) +:+ ") DO NOTHING"
  | CUpdate =>
      ") ON CONFLICT (" +:+ join "," (conflict_columns ckeys keys) +:+
      ") DO UPDATE SET " +:+ join ", " (upsert_assignments ckeys keys entries)
  end.

Definition insert_text (tableName : string) (keys entries : list string)
    (act : ConflictAction) (ckeys : list string)
    (ret : option (list ReturningOptions)) : string :=
  "INSERT INTO " +:+ escapeIdentifier tableName +:+ " (" +:+
  join ", " (map escapeIdentifier keys) +:+ ") VALUES (" +:+
  join ", " entries +:+ conflict_text act ckeys keys entries +:+
  returning_text ret.

Definition update_text (tableName : string) (keys entries : list string) : string :=
  "UPDATE " +:+ escapeIdentifier tableName +:+ " SET " +:+
  join ", " (set_assignments keys entries).

Definition where_text (conditions : list string) : string :=
  " WHERE " +:+ join ", " conditions.

End Shapes.

End Builder.

(** ** The transaction helper [withTx] *)

Module Tx.

Section WithClient.

(** The session behind [this.client], and what [this.client.query] does to
    it: a new session state and either a result or a rejection. *)
Variable World : Type.
Variable QueryResult : Type.
Variable client_query : string -> World -> World * Outcome QueryResult.

(** The session together with the statements issued on it so far. *)
Record State : Type := {
  world : World;
  issued : list string
}.

Definition query (sql : string) (st : State) : State * Outcome QueryResult :=
  let (w, r) := client_query sql (world st) in
  ({| world := w; issued := issued st ++ [sql] |}, r).

(** A unit of work [cb(this, cbParam)]: it touches the session only through
    the connection it is given, and ends by returning or throwing. *)
Inductive Work (R : Type) : Type :=
| Done (r : Outcome R)
| Query (sql : string) (k : Outcome QueryResult -> Work R).
Arguments Done {R} r.
Arguments Query {R} sql k.

Fixpoint run {R} (w : Work R) (st : State) : State * Outcome R :=
  match w with
  | Done r => (st, r)
  | Query sql k => let (st', r) := query sql st in run (k r) st'
  end.

(** The [catch (err)] block: [ROLLBACK] inside its own [try], then [throw err]. *)
Definition rollback_and_rethrow {R} (err : Exn) (st : State) : State * Outcome R :=
  let (st', _) := query "ROLLBACK" st in
  (st', Throw err).

Definition withTx {R} (cb : Work R) (st : State) : State * Outcome R :=
  let (st1, b) := query "BEGIN" st in
  match b with
  | Throw e => (st1, Throw e)
  | Return _ =>
      let (st2, r) := run cb st1 in
      match r with
      | Return res =>
          let (st3, c) := query "COMMIT" st2 in
          match c with
          | Return _ => (st3, Return res)
          | Throw err => rollback_and_rethrow err st3
          end
      | Throw err => rollback_and_rethrow err st2
      end
  end.

End WithClient.

Arguments world {World} s.
Arguments issued {World} s.
Arguments Done {QueryResult R} r.
Arguments Query {QueryResult R} sql k.

(** A session that counts its statements and rejects every statement whose
    text is in [failing] with the text as the thrown value. *)
Definition scripted (failing : list string) (sql : string) (w : nat)
    : nat * Outcome unit :=
  (S w, if existsb (String.eqb sql) failing then Throw (Thrown (JStr sql))
        else Return tt).

Definition fresh : State nat := {| world := 0; issued := [] |}.

(** A unit of work that issues one statement and throws ["boom"], and one
    that returns [1] without issuing anything. *)
Definition failing_work : Work unit nat :=
  Query "INSERT INTO t VALUES (1)" (fun _ => Done (Throw (Thrown (JStr "boom")))).

Definition returning_work : Work unit nat := Done (Return 1).

End Tx.

(** ** The decoders of [parser.ts] *)

Module Parser.

(** The [val] a decoder receives: the text of the column, or [null]. *)
Definition Wire : Type := option string.

(** The functions of other packages and of the language the decoders hand
    their text to. *)
Inductive Transform : Type :=
| MomentUtc | ParseInt | BigIntCtor | ParseFloat | BigNumberCtor | ParseByteA.

Definition Call : Type := Transform * Wire.

(** A computation that may throw, with the calls it made to the transforms. *)
Definition T (A : Type) : Type := list Call * Outcome A.

Definition ret {A} (a : A) : T A := ([], Return a).

Definition bindT {A B} (m : T A) (k : A -> T B) : T B :=
  match m with
  | (log, Return a) => let (log', r) := k a in (log ++ log', r)
  | (log, Throw e) => (log, Throw e)
  end.

Definition call {A} (t : Transform) (arg : Wire) (r : Outcome A) : T A :=
  ([(t, arg)], r).

(** [try { m } catch (err) { h }] *)
Definition try_catch {A} (m : T A) (h : Exn -> T A) : T A :=
  match m with
  | (log, Throw e) => let (log', r) := h e in (log ++ log', r)
  | (log, Return a) => (log, Return a)
  end.

Fixpoint mapT {A B} (f : A -> T B) (l : list A) : T (list B) :=
  match l with
  | [] => ret []
  | x :: rest =>
      bindT (f x) (fun y => bindT (mapT f rest) (fun ys => ret (y :: ys)))
  end.

(** *** [parseInt(text, 10)] and [BigInt(text)] on text of code units below 256 *)

Definition is_white (c : ascii) : bool :=
  let n := N_of_ascii c in
  ((9 <=? n) && (n <=? 13) || (n =? 32) || (n =? 160))%N.

Fixpoint trim_start (s : string) : string :=
  match s with
  | String c rest => if is_white c then trim_start rest else s
  | EmptyString => EmptyString
  end.

Fixpoint trim_end (s : string) : string :=
  match s with
  | EmptyString => EmptyString
  | String c rest =>
      match trim_end rest with
      | EmptyString => if is_white c then EmptyString else String c EmptyString
      | r => String c r
      end
  end.

(** The longest run of decimal digits at the start of [s]. *)
Fixpoint leading_digits (s : string) : Decimal.uint :=
  match s with
  | String c rest =>
      match uint_of_char c (Some (leading_digits rest)) with
      | Some d => d
      | None => Decimal.Nil
      end
  | EmptyString => Decimal.Nil
  end.

Definition two53 : N := 9007199254740992.

(** The double nearest to [m], ties to even; too large is an infinity. *)
Definition to_double (neg : bool) (m : N) : JsNumber :=
  if (m <? two53)%N then Finite neg m
  else
    let e := (N.log2 m - 52)%N in
    let q := N.shiftr m e in
    let r := N.land m (N.ones e) in
    let half := N.shiftl 1 (e - 1) in
    let q' := if ((half <? r) || ((r =? half) && N.odd q))%N then (q + 1)%N else q in
    let v := N.shiftl q' e in
    if (N.shiftl 1 1024 <=? v)%N then Infinite neg else Finite neg v.

Definition strip_sign (s : string) : bool * string :=
  match s with
  | String c rest =>
      if Ascii.eqb c "-" then (true, rest)
      else if Ascii.eqb c "+" then (false, rest)
      else (false, s)
  | EmptyString => (false, s)
  end.

Definition parseInt10 (text : string) : JsNumber :=
  let (neg, body) := strip_sign (trim_start text) in
  match leading_digits body with
  | Decimal.Nil => NaN
  | d => to_double neg (N.of_uint d)
  end.

(** [value >= Number.MIN_SAFE_INTEGER && value <= Number.MAX_SAFE_INTEGER] *)
Definition MAX_SAFE_INTEGER : N := 9007199254740991.

Definition in_safe_range (value : JsNumber) : bool :=
  match value with
  | Finite _ m => (m <=? MAX_SAFE_INTEGER)%N
  | NaN | Infinite _ => false
  end.

Definition digit_value (c : ascii) : option N :=
  let n := N_of_ascii c in
  if ((48 <=? n) && (n <=? 57))%N then Some (n - 48)%N
  else if ((97 <=? n) && (n <=? 122))%N then Some (n - 87)%N
  else if ((65 <=? n) && (n <=? 90))%N then Some (n - 55)%N
  else None.

Fixpoint radix_value (radix acc : N) (s : string) : option N :=
  match s with
  | EmptyString => Some acc
  | String c rest =>
      match digit_value c with
      | Some d =>
          if (d <? radix)%N then radix_value radix (acc * radix + d)%N rest
          else None
      | None => None
      end
  end.

Definition nonempty_radix (radix : N) (s : string) : option Z :=
  match s with
  | EmptyString => None
  | _ => option_map Z.of_N (radix_value radix 0 s)
  end.

Definition signed_decimal (s : string) : option Z :=
  let (neg, body) := strip_sign s in
  match body with
  | EmptyString => None
  | _ =>
      match NilEmpty.uint_of_string body with
      | Some d => Some (if neg then (- Z.of_N (N.of_uint d))%Z else Z.of_N (N.of_uint d))
      | None => None
      end
  end.

(** The radix announced by a prefix [0x], [0o] or [0b], with what follows. *)
Definition radix_prefix (s : string) : option (N * string) :=
  match s with
  | String c0 (String c1 rest) =>
      if Ascii.eqb c0 "0" then
        if Ascii.eqb c1 "x" || Ascii.eqb c1 "X" then Some (16%N, rest)
        else if Ascii.eqb c1 "o" || Ascii.eqb c1 "O" then Some (8%N, rest)
        else if Ascii.eqb c1 "b" || Ascii.eqb c1 "B" then Some (2%N, rest)
        else None
      else None
  | _ => None
  end.

(** The integer a text denotes for [BigInt(text)], if it denotes one. *)
Definition StringToBigInt (text : string) : option Z :=
  match trim_end (trim_start text) with
  | EmptyString => Some 0%Z
  | s =>
      match radix_prefix s with
      | Some (radix, digits) => nonempty_radix radix digits
      | None => signed_decimal s
      end
  end.

Definition BigInt (text : string) : Outcome JsVal :=
  match StringToBigInt text with
  | Some z => Return (JBigInt z)
  | None => Throw SyntaxError
  end.

(** *** Decoders *)

(** What a decoder hands back: a value, or for an array column the object
    whose [parse] materializes the elements. *)
Inductive Decoded : Type :=
| DVal (v : JsVal)
| DArrayParser (parse : unit -> T (list Decoded)).

(** The packages the decoders rest on: [moment.utc], [parseFloat],
    [new BigNumber], [postgres-bytea], and the splitting of an array literal
    into its entries by [postgres-array], whose [parse] calls the function it
    is given on [null] entries too when [array_calls_on_null] is set and
    keeps them as [null] itself otherwise. *)
Record Externals : Type := {
  moment_utc : string -> Outcome JsVal;
  parseFloat : string -> JsVal;
  BigNumber_new : string -> Outcome JsVal;
  parseByteA : Wire -> Outcome JsVal;
  array_entries : string -> list Wire;
  array_calls_on_null : bool;
  other_parser : N -> Wire -> Outcome JsVal
}.

Section WithExternals.

Variable ext : Externals.

Definition parseDbDate (val : Wire) : T Decoded :=
  match val with
  | Some text => bindT (call MomentUtc val (moment_utc ext text)) (fun m => ret (DVal m))
  | None => ret (DVal JNull)
  end.

Definition parseDbInteger (val : Wire) : T Decoded :=
  match val with
  | None => ret (DVal JNull)
  | Some text => call ParseInt val (Return (DVal (JNum (parseInt10 text))))
  end.

Definition parseDbBigInteger (val : Wire) : T Decoded :=
  match val with
  | None => ret (DVal JNull)
  | Some text =>
      bindT
        (try_catch
           (bindT (call ParseInt val (Return (parseInt10 text))) (fun value =>
              if in_safe_range value then ret (Some (DVal (JNum value)))
              else ret None))
           (fun _ => ret None))
        (fun returned =>
           match returned with
           | Some v => ret v
           | None => bindT (call BigIntCtor val (BigInt text)) (fun b => ret (DVal b))
           end)
  end.

Definition parseDbFloat (val : Wire) : T Decoded :=
  match val with
  | None => ret (DVal JNull)
  | Some text => call ParseFloat val (Return (DVal (parseFloat ext text)))
  end.

Definition parseDbBigFloat (val : Wire) : T Decoded :=
  match val with
  | None => ret (DVal JNull)
  | Some text => bindT (call BigNumberCtor val (BigNumber_new ext text)) (fun bn => ret (DVal bn))
  end.

Definition parseDbBool (val : Wire) : T Decoded :=
  match val with
  | None => ret (DVal JNull)
  | Some text =>
      ret (DVal (JBool (String.eqb text "TRUE" || String.eqb text "t" ||
                        String.eqb text "true" || String.eqb text "y" ||
                        String.eqb text "yes" || String.eqb text "on" ||
                        String.eqb text "1")))
  end.

(** [postgres-bytea], registered as it is. *)
Definition parseByteA_fn (val : Wire) : T Decoded :=
  bindT (call ParseByteA val (parseByteA ext val)) (fun b => ret (DVal b)).

(** [parseArray.parse(value, fn)] *)
Definition parseArray_parse (value : string) (fn : Wire -> T Decoded)
    : T (list Decoded) :=
  mapT (fun entry =>
          match entry with
          | None => if array_calls_on_null ext then fn None else ret (DVal JNull)
          | Some _ => fn entry
          end)
       (array_entries ext value).

Definition createArrayParser (value : string) (transform : Wire -> T Decoded)
    : Decoded :=
  DArrayParser (fun _ =>
    parseArray_parse value (fun entry =>
      match entry with
      | None => ret (DVal JNull)
      | Some _ => transform entry
      end)).

Definition array_decoder (transform : Wire -> T Decoded) (val : Wire) : T Decoded :=
  match val with
  | None => ret (DVal JNull)
  | Some text => ret (createArrayParser text transform)
  end.

Definition parseDbDateArray := array_decoder parseDbDate.
Definition parseDbIntegerArray := array_decoder parseDbInteger.
Definition parseDbBigIntegerArray := array_decoder parseDbBigInteger.
Definition parseDbFloatArray := array_decoder parseDbFloat.
Definition parseDbBigFloatArray := array_decoder parseDbBigFloat.
Definition parseDbBoolArray := array_decoder parseDbBool.
Definition parseByteAArray := array_decoder parseByteA_fn.

End WithExternals.

(** *** The registry of [pg.types] and [registerParsers] *)

(** The functions a registry slot can hold. *)
Inductive ParserFn : Type :=
| F_parseDbDate | F_parseDbDateArray
| F_parseDbInteger | F_parseDbIntegerArray
| F_parseDbBigInteger | F_parseDbBigIntegerArray
| F_parseDbFloat | F_parseDbFloatArray
| F_parseDbBigFloat | F_parseDbBigFloatArray
| F_parseDbBool | F_parseDbBoolArray
| F_parseByteA | F_parseByteAArray
| F_other (id : N).

Definition run_parser (ext : Externals) (f : ParserFn) : Wire -> T Decoded :=
  match f with
  | F_parseDbDate => parseDbDate ext
  | F_parseDbDateArray => parseDbDateArray ext
  | F_parseDbInteger => parseDbInteger
  | F_parseDbIntegerArray => parseDbIntegerArray ext
  | F_parseDbBigInteger => parseDbBigInteger
  | F_parseDbBigIntegerArray => parseDbBigIntegerArray ext
  | F_parseDbFloat => parseDbFloat ext
  | F_parseDbFloatArray => parseDbFloatArray ext
  | F_parseDbBigFloat => parseDbBigFloat ext
  | F_parseDbBigFloatArray => parseDbBigFloatArray ext
  | F_parseDbBool => parseDbBool
  | F_parseDbBoolArray => parseDbBoolArray ext
  | F_parseByteA => parseByteA_fn ext
  | F_parseByteAArray => parseByteAArray ext
  | F_other id => fun val =>
      match other_parser ext id val with
      | Return v => ret (DVal v)
      | Throw e => ([], Throw e)
      end
  end.

Inductive Format : Type := text | binary.

(** [pg.types.builtins] *)
Definition BOOL : Z := 16.
Definition BYTEA : Z := 17.
Definition INT8 : Z := 20.
Definition INT2 : Z := 21.
Definition INT4 : Z := 23.
Definition FLOAT4 : Z := 700.
Definition FLOAT8 : Z := 701.
Definition MONEY : Z := 790.
Definition DATE : Z := 1082.
Definition TIME : Z := 1083.
Definition TIMESTAMP : Z := 1114.
Definition TIMESTAMPTZ : Z := 1184.
Definition TIMETZ : Z := 1266.
Definition NUMERIC : Z := 1700.

(** The module variable [initialized] and the two tables of [pg.types]. *)
Record Registry : Type := {
  initialized : bool;
  text_parsers : gmap Z ParserFn;
  binary_parsers : gmap Z ParserFn
}.

(** [pg.types.setTypeParser(oid, format, parseFn)]; the two-argument form
    is the one with [format = "text"]. *)
Definition setTypeParser (oid : Z) (format : Format) (parseFn : ParserFn)
    (r : Registry) : Registry :=
  match format with
  | text =>
      {| initialized := initialized r;
         text_parsers := <[oid := parseFn]> (text_parsers r);
         binary_parsers := binary_parsers r |}
  | binary =>
      {| initialized := initialized r;
         text_parsers := text_parsers r;
         binary_parsers := <[oid := parseFn]> (binary_parsers r) |}
  end.

(** The calls of [registerParsers], first to last. *)
Definition registrations : list (Z * Format * ParserFn) :=
  [ (DATE, text, F_parseDbDate); (TIME, text, F_parseDbDate);
    (TIMETZ, text, F_parseDbDate); (TIMESTAMP, text, F_parseDbDate);
    (TIMESTAMPTZ, text, F_parseDbDate);
    (1182, text, F_parseDbDateArray); (1183, text, F_parseDbDateArray);
    (1270, text, F_parseDbDateArray); (1115, text, F_parseDbDateArray);
    (1185, text, F_parseDbDateArray);
    (INT2, text, F_parseDbInteger); (INT4, text, F_parseDbInteger);
    (INT8, text, F_parseDbBigInteger);
    (1005, text, F_parseDbIntegerArray); (1007, text, F_parseDbIntegerArray);
    (1016, text, F_parseDbBigIntegerArray);
    (FLOAT4, text, F_parseDbFloat); (FLOAT8, text, F_parseDbFloat);
    (NUMERIC, text, F_parseDbBigFloat); (MONEY, text, F_parseDbBigFloat);
    (1021, text, F_parseDbFloatArray); (1022, text, F_parseDbBigFloatArray);
    (1231, text, F_parseDbBigFloatArray); (791, text, F_parseDbBigFloatArray);
    (BOOL, text, F_parseDbBool); (1000, text, F_parseDbBoolArray);
    (BYTEA, binary, F_parseByteA); (1001, text, F_parseByteAArray) ]%Z.

Definition set_initialized (r : Registry) : Registry :=
  {| initialized := true;
     text_parsers := text_parsers r;
     binary_parsers := binary_parsers r |}.

Definition registerParsers (r : Registry) : Registry :=
  if initialized r then r
  else
    set_initialized
      (fold_left (fun acc '(oid, format, parseFn) => setTypeParser oid format parseFn acc)
                 registrations r).

(** The registry of a process that has not called [registerParsers] and
    holds no other parser. *)
Definition blank : Registry :=
  {| initialized := false; text_parsers := ∅; binary_parsers := ∅ |}.

(** The decoder found for a column type, as [pg.types.getTypeParser] does. *)
Definition getTypeParser (r : Registry) (oid : Z) (format : Format) : option ParserFn :=
  match format with
  | text => text_parsers r !! oid
  | binary => binary_parsers r !! oid
  end.

(** The text Postgres sends for the integer [z]. *)
Definition decimal_text (z : Z) : string :=
  match z with
  | Z0 => "0"
  | Zpos p => NilEmpty.string_of_uint (Pos.to_uint p)
  | Zneg p => String "-" (NilEmpty.string_of_uint (Pos.to_uint p))
  end.

Definition is_digit (c : ascii) : bool :=
  let n := N_of_ascii c in ((48 <=? n) && (n <=? 57))%N.

Fixpoint all_digits (s : string) : bool :=
  match s with
  | EmptyString => true
  | String c rest => is_digit c && all_digits rest
  end.

(** What [parse] of an array decoder's result materializes. *)
Definition materialize (d : Decoded) : T (list Decoded) :=
  match d with
  | DArrayParser parse => parse tt
  | DVal v => ret []
  end.

(** Externals whose every transform throws when it is reached. *)
Definition throwing : Externals :=
  {| moment_utc := fun _ => Throw (Thrown (JStr "moment.utc called"));
     parseFloat := fun _ => JUndefined;
     BigNumber_new := fun _ => Throw (Thrown (JStr "BigNumber called"));
     parseByteA := fun _ => Throw (Thrown (JStr "parseByteA called"));
     array_entries := fun _ => [None; Some "1"; None];
     array_calls_on_null := true;
     other_parser := fun _ _ => Return JUndefined |}.

End Parser.

(** ** More vocabulary for the builder *)

Module BuilderMore.

Import Builder.

(** The options of an [insert] with [returning] left out. *)
Definition without_returning (o : InsertOptions) : InsertOptions :=
  {| conflictAction := conflictAction o;
     conflictKeys := conflictKeys o;
     returning := None |}.

(** The options of an [insert] that names no conflict handling. *)
Definition without_conflict (o : InsertOptions) : InsertOptions :=
  {| conflictAction := None;
     conflictKeys := None;
     returning := returning o |}.

(** A statement with [suffix] put after its text. *)
Definition with_suffix (suffix : string) (r : Outcome (string * list JsVal))
    : Outcome (string * list JsVal) :=
  do sp <- r ; Return (fst sp +:+ suffix, snd sp).

(** The sign the builder writes for a comparison operator. *)
Definition comparison_sign (operator : N) : option string :=
  if N.eqb operator Equal then Some "="
  else if N.eqb operator NotEqual then Some "<>"
  else if N.eqb operator Less then Some "<"
  else if N.eqb operator LessOrEqual then Some "<="
  else if N.eqb operator Greater then Some ">"
  else if N.eqb operator GreaterOrEqual then Some ">="
  else None.

(** An operator field that is none of the seven operators. *)
Definition unknown_operator (operator : JsVal) : bool :=
  negb (existsb (strict_eq_int operator)
          [Equal; NotEqual; Less; LessOrEqual; Greater; GreaterOrEqual; Between]).

(** A value for which [typeof] does not say ["object"]. *)
Definition is_plain (v : JsVal) : bool := negb (String.eqb (typeof v) "object").

Definition has_null (values : list (string * JsVal)) : Prop :=
  Exists (fun k => lookup_prop values k = JNull) (own_keys values).

Definition seven_unknown : JsVal :=
  JObj [("value", JInt 10); ("operator", JInt 7)].

Definition plain_where : list (string * JsVal) :=
  [("a", JInt 1); ("b", JStr "x"); ("c", JUndefined)].

End BuilderMore.

(** ** More vocabulary for the decoders *)

Module ParserMore.

Import Parser.

(** The texts [parseDbBool] reads as [true]. *)
Definition true_texts : list string :=
  ["TRUE"; "t"; "true"; "y"; "yes"; "on"; "1"].

Definition format_eqb (a b : Format) : bool :=
  match a, b with
  | text, text | binary, binary => true
  | _, _ => false
  end.

(** The function the calls [l] of [setTypeParser] leave in the slot of
    [oid] and [format], if one of them fills it: the last one that does. *)
Fixpoint registered_in (l : list (Z * Format * ParserFn)) (oid : Z) (format : Format)
    : option ParserFn :=
  match l with
  | [] => None
  | (o, f, parseFn) :: rest =>
      match registered_in rest oid format with
      | Some later => Some later
      | None => if Z.eqb o oid && format_eqb f format then Some parseFn else None
      end
  end.


End ParserMore.

(** ** The connection manager of [index.ts] *)

Module Manager.

Import Parser.

(** Whether a value counts as true in a condition. *)
Definition truthy (v : JsVal) : bool :=
  match v with
  | JUndefined | JNull => false
  | JBool b => b
  | JNum NaN => false
  | JNum (Finite _ m) => negb (N.eqb m 0)
  | JNum (Infinite _) => true
  | JBigInt z => negb (Z.eqb z 0)
  | JStr EmptyString => false
  | JStr (String _ _) => true
  | JObj _ | JArr _ => true
  end.

Definition truthy_number (n : JsNumber) : bool := truthy (JNum n).

(** The value a [catch] clause receives. *)
Definition error_value (e : Exn) : JsVal :=
  match e with
  | TypeError => JObj [("name", JStr "TypeError")]
  | SyntaxError => JObj [("name", JStr "SyntaxError")]
  | Thrown v => v
  end.

Definition network_codes : list string :=
  ["ECONNREFUSED"; "ECONNRESET"; "ECONNABORTED"; "EHOSTUNREACH"; "EHOSTDOWN"].

(** [isNetworkError] *)
Definition isNetworkError (err : JsVal) : Outcome bool :=
  if truthy err then
    do code <- get_prop err "code" ;
    match code with
    | JStr c => Return (existsb (String.eqb c) network_codes)
    | _ => Return false
    end
  else Return false.

(** [ManagerOptions]; an absent field is [None]. *)
Record ManagerOptions : Type := {
  host : option string;
  port : option JsNumber;
  user : string;
  password : option string;
  database : string;
  usePool : option bool;
  maxConnections : option JsNumber
}.

(** The configuration handed to [new Pool]. *)
Record PoolConfig : Type := {
  cfg_host : string;
  cfg_port : JsNumber;
  cfg_user : string;
  cfg_password : option string;
  cfg_database : string;
  cfg_max : JsNumber;
  cfg_parseInputDatesAsUTC : bool
}.

Definition number (n : N) : JsNumber := Finite false n.

Definition missing_options : Exn :=
  Thrown (JObj [("message", JStr "Error: Missing or invalid options")]).

(** The constructor: the pool configuration, [usingSingleConnection], and
    the registry of decoders as [registerParsers] leaves it. *)
Definition construct (options : option ManagerOptions) (registry : Registry)
    : Outcome (PoolConfig * bool * Registry) :=
  match options with
  | None => Throw missing_options
  | Some o =>
      let pooled := match usePool o with Some true => true | _ => false end in
      let maxConnections :=
        if pooled then
          match maxConnections o with
          | Some n => if truthy_number n then n else number 100
          | None => number 100
          end
        else number 2 in
      let config :=
        {| cfg_host := match host o with
                       | Some (String c rest) => String c rest
                       | _ => "127.0.0.1"
                       end;
           cfg_port := match port o with
                       | Some n => if truthy_number n then n else number 5432
                       | None => number 5432
                       end;
           cfg_user := user o;
           cfg_password := password o;
           cfg_database := database o;
           cfg_max := maxConnections;
           cfg_parseInputDatesAsUTC := true |} in
      Return (config, negb pooled, registerParsers registry)
  end.

(** A client of the pool. *)
Definition Client : Type := nat.

Inductive Event : Type :=
| Connect
| Release (client : Client) (err : JsVal)
| End_.

Section WithPool.

(** The pool behind [this.pool], with [pool.connect], [client.release] and
    [pool.end]: each gives a new state of the pool and returns or throws. *)
Variable World : Type.
Variable pool_connect : World -> World * Outcome Client.
Variable client_release : Client -> JsVal -> World -> World * Outcome unit.
Variable pool_end : World -> World * Outcome unit.

(** The fields of a [Manager], with what it has asked of the pool so far
    and the clients on which it waits for ["end"]. *)
Record State : Type := {
  world : World;
  events : list Event;
  pool : bool;
  singleConn : option Client;
  usingSingleConnection : bool;
  end_handlers : list Client
}.

Definition set_singleConn (conn : option Client) (st : State) : State :=
  {| world := world st; events := events st; pool := pool st;
     singleConn := conn; usingSingleConnection := usingSingleConnection st;
     end_handlers := end_handlers st |}.

Definition asked (w : World) (ev : Event) (st : State) : State :=
  {| world := w; events := events st ++ [ev]; pool := pool st;
     singleConn := singleConn st;
     usingSingleConnection := usingSingleConnection st;
     end_handlers := end_handlers st |}.

(** [this.pool!.connect()] *)
Definition connect (st : State) : State * Outcome Client :=
  if pool st then
    let (w, r) := pool_connect (world st) in (asked w Connect st, r)
  else (st, Throw TypeError).

Definition getConnection (st : State) : State * Outcome Client :=
  if negb (usingSingleConnection st) then connect st
  else
    match singleConn st with
    | Some conn => (st, Return conn)
    | None =>
        let (st1, r) := connect st in
        match r with
        | Return client =>
            ({| world := world st1; events := events st1; pool := pool st1;
                singleConn := Some client;
                usingSingleConnection := usingSingleConnection st1;
                end_handlers := end_handlers st1 ++ [client] |},
             Return client)
        | Throw e => (st1, Throw e)
        end
    end.

(** [client.release(err)] *)
Definition release_client (client : Client) (err : JsVal) (st : State)
    : State * Outcome unit :=
  let (w, r) := client_release client err (world st) in
  (asked w (Release client err) st, r).

(** [releaseConnection], which is what [conn.release(err)] calls. *)
Definition releaseConnection (client : Client) (err : JsVal) (st : State)
    : State * Outcome unit :=
  if usingSingleConnection st then
    if truthy err then release_client client err (set_singleConn None st)
    else (st, Return tt)
  else release_client client err st.

(** The [catch (err)] block of [withConnection]. *)
Definition release_and_rethrow {R} (conn : Client) (err : Exn) (st : State)
    : State * Outcome R :=
  let (st', r) := releaseConnection conn (error_value err) st in
  match r with
  | Return _ => (st', Throw err)
  | Throw e => (st', Throw e)
  end.

Definition withConnection {R} (cb : Client -> State -> State * Outcome R)
    (st : State) : State * Outcome R :=
  let (st1, c) := getConnection st in
  match c with
  | Throw e => (st1, Throw e)
  | Return conn =>
      let (st2, r) := cb conn st1 in
      match r with
      | Return res =>
          let (st3, rel) := releaseConnection conn JUndefined st2 in
          match rel with
          | Return _ => (st3, Return res)
          | Throw err => release_and_rethrow conn err st3
          end
      | Throw err => release_and_rethrow conn err st2
      end
  end.

Definition shutting_down : JsVal := JObj [("message", JStr "shutting down")].

Definition shutdown (st : State) : State :=
  let st1 :=
    match singleConn st with
    | Some c => fst (releaseConnection c shutting_down (set_singleConn None st))
    | None => st
    end in
  if pool st1 then
    let (w, _) := pool_end (world st1) in
    {| world := w; events := events st1 ++ [End_]; pool := false;
       singleConn := singleConn st1;
       usingSingleConnection := usingSingleConnection st1;
       end_handlers := end_handlers st1 |}
  else st1.

(** The client [c] emits ["end"]: a handler waiting on it runs once. *)
Fixpoint remove_first (c : Client) (l : list Client) : list Client :=
  match l with
  | [] => []
  | x :: rest => if Nat.eqb x c then rest else x :: remove_first c rest
  end.

Definition client_emits_end (c : Client) (st : State) : State :=
  if existsb (Nat.eqb c) (end_handlers st) then
    {| world := world st; events := events st; pool := pool st;
       singleConn := None;
       usingSingleConnection := usingSingleConnection st;
       end_handlers := remove_first c (end_handlers st) |}
  else st.

End WithPool.

Arguments world {World} s.
Arguments events {World} s.
Arguments pool {World} s.
Arguments singleConn {World} s.
Arguments usingSingleConnection {World} s.
Arguments end_handlers {World} s.

(** A pool that hands out the clients 1, 2, ... and never throws, and a
    manager over it in single-connection mode that has done nothing yet. *)
Definition counting_connect (w : nat) : nat * Outcome Client := (S w, Return (S w)).
Definition quiet_release (c : Client) (err : JsVal) (w : nat) : nat * Outcome unit :=
  (w, Return tt).
Definition quiet_end (w : nat) : nat * Outcome unit := (w, Return tt).

Definition new_single : State nat :=
  {| world := 0; events := []; pool := true; singleConn := None;
     usingSingleConnection := true; end_handlers := [] |}.

Definition boom : Exn := Thrown (JObj [("message", JStr "boom")]).

Definition refused : JsVal := JObj [("code", JStr "ECONNREFUSED")].

Definition pooled_options : ManagerOptions :=
  {| host := None; port := Some (number 0); user := "u"; password := None;
     database := "d"; usePool := Some true; maxConnections := Some (number 0) |}.

End Manager.

(** * Properties of the statement builder *)

Module BuilderFacts.

Import Builder.

Lemma raw_marker_cases (v : JsVal) :
  raw_marker v =
  match v with
  | JNull => Throw TypeError
  | _ => Return (raw_text v)
  end.
Proof.
  destruct v as [| | b | n | z | s | props | elems]; try reflexivity.
  - unfold raw_marker, raw_text; simpl. destruct (lookup_prop props "raw"); reflexivity.
Qed.

Lemma raw_marker_not_null (v : JsVal) :
  v <> JNull -> raw_marker v = Return (raw_text v).
Proof.
  intros Hv. rewrite raw_marker_cases. destruct v; congruence.
Qed.

Lemma conflictKeys_includes_given options ckeys k :
  keys_of_options options = Some ckeys ->
  conflictKeys_includes options k = Return (in_keys ckeys k).
Proof.
  unfold keys_of_options, conflictKeys_includes.
  destruct options as [o|]; [|discriminate].
  intros ->. reflexivity.
Qed.

Lemma append_cons (c : ascii) (s t : string) :
  String c s +:+ t = String c (s +:+ t).
Proof. reflexivity. Qed.

Lemma append_nil_r (s : string) : s +:+ EmptyString = s.
Proof.
  induction s as [|c s IH]; [reflexivity|].
  rewrite append_cons, IH. reflexivity.
Qed.

Lemma append_assoc (a b c : string) : (a +:+ b) +:+ c = a +:+ b +:+ c.
Proof.
  induction a as [|x a IH]; [reflexivity|].
  rewrite !append_cons, IH. reflexivity.
Qed.

Lemma join_empty_cons (x : string) (xs : list string) :
  join EmptyString (x :: xs) = x +:+ join EmptyString xs.
Proof.
  unfold join. destruct xs as [|y ys].
  - symmetry. apply append_nil_r.
  - reflexivity.
Qed.

Lemma join_empty_app (l1 l2 : list string) :
  join EmptyString (l1 ++ l2) = join EmptyString l1 +:+ join EmptyString l2.
Proof.
  induction l1 as [|x l1 IH].
  - reflexivity.
  - rewrite <- app_comm_cons, !join_empty_cons, IH, append_assoc. reflexivity.
Qed.

Lemma join_empty_nil : join EmptyString [] = EmptyString.
Proof. reflexivity. Qed.

Ltac flatten_text :=
  repeat (rewrite ?join_empty_app, ?join_empty_cons, ?join_empty_nil,
                  ?append_assoc, ?append_nil_r).

Section Loops.

Variable esc : string -> string.

Lemma insert_step_shape values act options ckeys k acc :
  lookup_prop values k <> JNull ->
  act = CNone \/ keys_of_options options = Some ckeys ->
  insert_step esc values act options acc k =
  Return (insert_acc_after esc act ckeys values [k] acc).
Proof.
  intros Hk Hopt. unfold insert_step.
  rewrite (raw_marker_not_null _ Hk). cbn [bind].
  assert (Hinc : act <> CNone ->
            conflictKeys_includes options k = Return (in_keys ckeys k)).
  { intros Hact. destruct Hopt as [->|Hopt]; [congruence|].
    apply conflictKeys_includes_given; assumption. }
  unfold insert_acc_after, bound_values, is_bound, conflict_columns.
  cbn [map value_entries List.filter upsert_assignments].
  destruct (raw_text (lookup_prop values k)) as [txt|] eqn:Hraw;
    unfold classify_conflict; destruct act;
    rewrite ?Hinc by discriminate; cbn [bind];
    rewrite ?length_app; cbn [length]; rewrite ?Nat.add_1_r;
    rewrite ?app_nil_r.
  all: try (destruct acc; reflexivity).
  all: destruct (in_keys ckeys k); cbn [map]; rewrite ?app_nil_r;
    try reflexivity; destruct acc; reflexivity.
Qed.

Lemma value_entries_length n vs : length (value_entries n vs) = length vs.
Proof.
  revert n. induction vs as [|v vs IH]; intros n; [reflexivity|].
  cbn [value_entries]. destruct (raw_text v); cbn [length]; rewrite IH; reflexivity.
Qed.

Lemma insert_acc_after_cons values act ckeys k keys acc :
  insert_acc_after esc act ckeys values (k :: keys) acc =
  insert_acc_after esc act ckeys values keys
    (insert_acc_after esc act ckeys values [k] acc).
Proof.
  unfold insert_acc_after, bound_values, is_bound, conflict_columns.
  cbn [map value_entries List.filter upsert_assignments
       i_params i_columns i_columnValues i_conflictColumns i_upsertColumns].
  destruct (raw_text (lookup_prop values k)) as [txt|] eqn:Hraw;
    rewrite ?length_app; cbn [length]; rewrite ?Nat.add_1_r, ?Nat.add_0_r;
    cbn [upsert_assignments]; rewrite ?app_nil_r;
    destruct act; destruct (in_keys ckeys k); cbn [map];
    rewrite <- ?app_assoc; rewrite ?app_nil_r; reflexivity.
Qed.

Lemma insert_loop_shape values act options ckeys keys : forall acc,
  Forall (fun k => lookup_prop values k <> JNull) keys ->
  act = CNone \/ keys_of_options options = Some ckeys ->
  insert_loop esc values act options keys acc =
  Return (insert_acc_after esc act ckeys values keys acc).
Proof.
  induction keys as [|k keys IH]; intros acc Hnull Hopt.
  - destruct acc; unfold insert_acc_after; simpl.
    destruct act; rewrite !app_nil_r; reflexivity.
  - inversion Hnull as [|? ? Hk Hrest]; subst.
    cbn [insert_loop].
    rewrite (insert_step_shape values act options ckeys k acc Hk Hopt).
    cbn [bind]. rewrite IH by assumption.
    f_equal. symmetry. apply insert_acc_after_cons.
Qed.

Lemma update_step_shape values k acc :
  lookup_prop values k <> JNull ->
  update_step esc values acc k = Return (update_acc_after esc values [k] acc).
Proof.
  intros Hk. unfold update_step.
  rewrite (raw_marker_not_null _ Hk). cbn [bind].
  unfold update_acc_after, bound_values, is_bound.
  cbn [map value_entries List.filter].
  destruct (raw_text (lookup_prop values k)) as [txt|];
    cbn [set_assignments]; rewrite ?length_app; cbn [length];
    rewrite ?Nat.add_1_r, ?app_nil_r; destruct acc; reflexivity.
Qed.

Lemma update_acc_after_cons values k keys acc :
  update_acc_after esc values (k :: keys) acc =
  update_acc_after esc values keys (update_acc_after esc values [k] acc).
Proof.
  unfold update_acc_after, bound_values, is_bound.
  cbn [map value_entries List.filter u_params u_columnValues].
  destruct (raw_text (lookup_prop values k)) as [txt|];
    cbn [set_assignments]; rewrite ?length_app; cbn [length];
    rewrite ?Nat.add_1_r, ?Nat.add_0_r, ?app_nil_r, <- ?app_assoc; reflexivity.
Qed.

Lemma update_loop_shape values keys : forall acc,
  Forall (fun k => lookup_prop values k <> JNull) keys ->
  update_loop esc values keys acc = Return (update_acc_after esc values keys acc).
Proof.
  induction keys as [|k keys IH]; intros acc Hnull.
  - destruct acc; unfold update_acc_after; simpl.
    rewrite !app_nil_r; reflexivity.
  - inversion Hnull as [|? ? Hk Hrest]; subst.
    cbn [update_loop]. rewrite (update_step_shape values k acc Hk).
    cbn [bind]. rewrite IH by assumption.
    f_equal. symmetry. apply update_acc_after_cons.
Qed.

Lemma where_loop_app where_ pre post : forall acc,
  where_loop esc where_ (pre ++ post) acc =
  bind (where_loop esc where_ pre acc) (where_loop esc where_ post).
Proof.
  induction pre as [|k pre IH]; intros acc; [reflexivity|].
  cbn [app where_loop].
  destruct (where_step esc where_ acc k) as [acc'|e]; cbn [bind]; [apply IH | reflexivity].
Qed.

Lemma where_step_returns where_ acc k :
  lookup_prop where_ k <> JNull ->
  exists acc', where_step esc where_ acc k = Return acc'.
Proof.
  intros Hk. unfold where_step, is_condition.
  destruct (lookup_prop where_ k) as [| | b | n | z | s | props | elems];
    try congruence; cbn; try (eexists; reflexivity).
  destruct (not_nullish (lookup_prop props "value")); cbn; [|eexists; reflexivity].
  destruct (not_nullish (lookup_prop props "operator")); cbn; [|eexists; reflexivity].
  unfold where_dispatch; cbn.
  repeat match goal with
         | |- context [if ?c then _ else _] => destruct c
         end; eexists; reflexivity.
Qed.

Lemma where_loop_returns where_ keys : forall acc,
  Forall (fun k => lookup_prop where_ k <> JNull) keys ->
  exists acc', where_loop esc where_ keys acc = Return acc'.
Proof.
  induction keys as [|k keys IH]; intros acc Hnull.
  - eexists; reflexivity.
  - inversion Hnull as [|? ? Hk Hrest]; subst.
    destruct (where_step_returns where_ acc k Hk) as [acc1 H1].
    cbn [where_loop]. rewrite H1. cbn [bind]. apply IH; assumption.
Qed.

Lemma insert_shape tableName values options ckeys :
  null_free values ->
  parse_conflictAction options = CNone \/ keys_of_options options = Some ckeys ->
  let vs := column_values values in
  insert esc tableName values options =
  Return (insert_text esc tableName (own_keys values) (value_entries 0 vs)
            (parse_conflictAction options) ckeys (returning_of options),
          bound_values vs).
Proof.
  intros Hnull Hopt vs. unfold insert.
  rewrite (insert_loop_shape values _ options ckeys) by assumption.
  cbn [bind]. unfold insert_acc_after, empty_insert, insert_text, conflict_text.
  cbn [i_params i_columns i_columnValues i_conflictColumns i_upsertColumns
       length app].
  fold (column_values values). fold vs.
  f_equal. f_equal.
  replace (match options with Some o => returning o | None => None end)
    with (returning_of options) by reflexivity.
  unfold addReturningToSQL, returning_text, insert_tail.
  cbn [i_conflictColumns i_upsertColumns].
  destruct (returning_of options) as [items|];
    destruct (parse_conflictAction options); flatten_text; reflexivity.
Qed.

Lemma update_shape tableName values where_ options :
  null_free values ->
  let vs := column_values values in
  let head := update_text esc tableName (own_keys values) (value_entries 0 vs) in
  let tail := returning_text esc (upd_returning_of options) in
  update esc tableName values where_ options =
  match where_ with
  | None => Return (head +:+ tail, bound_values vs)
  | Some w =>
      do acc <- where_loop esc w (own_keys w)
                  {| w_params := bound_values vs; w_conditions := [] |} ;
      Return (head +:+ where_text (w_conditions acc) +:+ tail, w_params acc)
  end.
Proof.
  intros Hnull vs head tail. unfold update.
  rewrite (update_loop_shape values) by assumption.
  cbn [bind]. unfold update_acc_after.
  cbn [u_params u_columnValues length app].
  fold (column_values values). fold vs.
  destruct where_ as [w|]; cbn [addWhereToSQL bind].
  - destruct (where_loop esc w (own_keys w) _) as [acc|e]; cbn [bind fst snd];
      [|reflexivity].
    subst head tail. unfold update_text, where_text, addReturningToSQL, returning_text.
    destruct (upd_returning_of options); flatten_text; reflexivity.
  - cbn [fst snd]. subst head tail.
    unfold update_text, addReturningToSQL, returning_text.
    destruct (upd_returning_of options); flatten_text; reflexivity.
Qed.

Lemma delete_shape tableName where_ options :
  let head := "DELETE FROM " +:+ esc tableName in
  let tail := returning_text esc (upd_returning_of options) in
  delete esc tableName where_ options =
  match where_ with
  | None => Return (head +:+ tail, [])
  | Some w =>
      do acc <- where_loop esc w (own_keys w)
                  {| w_params := []; w_conditions := [] |} ;
      Return (head +:+ where_text (w_conditions acc) +:+ tail, w_params acc)
  end.
Proof.
  intros head tail. unfold delete.
  destruct where_ as [w|]; cbn [addWhereToSQL bind].
  - destruct (where_loop esc w (own_keys w) _) as [acc|e]; cbn [bind fst snd];
      [|reflexivity].
    subst head tail. unfold where_text, addReturningToSQL, returning_text.
    destruct (upd_returning_of options); flatten_text; reflexivity.
  - cbn [fst snd]. subst head tail.
    unfold addReturningToSQL, returning_text.
    destruct (upd_returning_of options); flatten_text; reflexivity.
Qed.

End Loops.

(** *** Numbering of the entries of a VALUES list *)

Lemma bound_values_length_le vs : length (bound_values vs) <= length vs.
Proof. apply List.filter_length_le. Qed.

Lemma is_bound_raw v txt : raw_text v = Some txt -> is_bound v = false.
Proof. unfold is_bound. intros ->. reflexivity. Qed.

Lemma is_bound_plain v : raw_text v = None -> is_bound v = true.
Proof. unfold is_bound. intros ->. reflexivity. Qed.

Lemma entries_of_bound_numbered vs : forall n,
  entries_of_bound vs (value_entries n vs) =
  map placeholder (seq (S n) (length (bound_values vs))).
Proof.
  unfold bound_values.
  induction vs as [|v vs IH]; intros n; [reflexivity|].
  cbn [value_entries List.filter].
  destruct (raw_text v) as [txt|] eqn:Hraw; cbn [entries_of_bound].
  - rewrite (is_bound_raw _ _ Hraw). apply IH.
  - rewrite (is_bound_plain _ Hraw). cbn [length seq map]. rewrite IH. reflexivity.
Qed.

Lemma entries_of_raw_verbatim vs : forall n,
  entries_of_raw vs (value_entries n vs) = omap raw_text vs.
Proof.
  induction vs as [|v vs IH]; intros n; [reflexivity|].
  cbn [value_entries omap list_omap].
  destruct (raw_text v) as [txt|] eqn:Hraw; cbn [entries_of_raw].
  - rewrite (is_bound_raw _ _ Hraw), IH. reflexivity.
  - rewrite (is_bound_plain _ Hraw). apply IH.
Qed.

Lemma value_entries_raw vs : forall n i v txt,
  vs !! i = Some v -> raw_text v = Some txt ->
  value_entries n vs !! i = Some txt.
Proof.
  induction vs as [|x vs IH]; intros n i v txt Hi Hraw; [discriminate|].
  destruct i as [|i]; cbn in Hi.
  - injection Hi as ->. cbn [value_entries]. rewrite Hraw. reflexivity.
  - cbn [value_entries]. destruct (raw_text x); cbn; eapply IH; eassumption.
Qed.

Lemma value_entries_bound vs : forall n i v,
  vs !! i = Some v -> raw_text v = None ->
  let k := length (bound_values (take (S i) vs)) in
  1 <= k /\ k <= length (bound_values vs) /\
  value_entries n vs !! i = Some (placeholder (n + k)) /\
  bound_values vs !! (k - 1) = Some v.
Proof.
  unfold bound_values.
  induction vs as [|x vs IH]; intros n i v Hi Hraw; [discriminate|].
  destruct i as [|i]; cbn in Hi.
  - injection Hi as ->.
    cbn [take]. rewrite firstn_O.
    cbn [List.filter value_entries]. rewrite Hraw, (is_bound_plain _ Hraw).
    cbn [length]. rewrite Nat.add_1_r. cbn. repeat split; lia.
  - specialize (IH (match raw_text x with Some _ => n | None => S n end) i v Hi Hraw).
    cbn zeta in IH. destruct IH as (H1 & H2 & H3 & H4).
    cbn [take List.filter value_entries].
    destruct (raw_text x) as [txt|] eqn:Hx.
    + rewrite (is_bound_raw _ _ Hx). repeat split; assumption.
    + rewrite (is_bound_plain _ Hx). cbn [length]. repeat split; try lia.
      * transitivity (value_entries (S n) vs !! i); [reflexivity|].
        rewrite H3. f_equal. f_equal. lia.
      * replace (S (length (List.filter is_bound (take (S i) vs))) - 1)
          with (S (length (List.filter is_bound (take (S i) vs)) - 1)) by lia.
        exact H4.
Qed.

(** *** What the builder does with each kind of entry *)

Lemma numbering_of_entries (vs : list JsVal) :
  let entries := value_entries 0 vs in
  let M := length (bound_values vs) in
  length entries = length vs /\
  entries_of_bound vs entries = map placeholder (seq 1 M) /\
  entries_of_raw vs entries = omap raw_text vs /\
  (forall i v, vs !! i = Some v -> raw_text v = None ->
     exists k, 1 <= k /\ k <= M /\
       entries !! i = Some (placeholder k) /\
       bound_values vs !! (k - 1) = Some v) /\
  (forall i v txt, vs !! i = Some v -> raw_text v = Some txt ->
     entries !! i = Some txt).
Proof.
  cbn zeta. split; [apply value_entries_length|].
  split; [apply entries_of_bound_numbered|].
  split; [apply entries_of_raw_verbatim|].
  split.
  - intros i v Hi Hraw.
    destruct (value_entries_bound vs 0 i v Hi Hraw) as (H1 & H2 & H3 & H4).
    eexists. repeat split; eassumption.
  - intros i v txt Hi Hraw. eapply value_entries_raw; eassumption.
Qed.

(** C1. On a mapping none of whose values is [null], [insert] and [update]
    hand over as parameters exactly the values that are not raw-fragment
    markers, in column order; the entries of the VALUES list (and the right
    sides of the SET list) at those columns are [$1], ..., [$M] in order,
    the placeholder [$k] of a column standing for the [k]-th parameter, and
    the entries at the markers are their texts. On a mapping with a [null]
    value, which is no marker, no statement is produced: both throw. *)
Theorem C1_placeholders_numbered_in_order (esc : string -> string) :
  (forall tableName values options ckeys,
     null_free values ->
     parse_conflictAction options = CNone \/ keys_of_options options = Some ckeys ->
     let vs := column_values values in
     let M := length (bound_values vs) in
     exists entries tail,
       insert esc tableName values options =
         Return ("INSERT INTO " +:+ esc tableName +:+ " (" +:+
                 join ", " (map esc (own_keys values)) +:+ ") VALUES (" +:+
                 join ", " entries +:+ tail,
                 bound_values vs) /\
       update esc tableName values None None =
         Return ("UPDATE " +:+ esc tableName +:+ " SET " +:+
                 join ", " (set_assignments esc (own_keys values) entries),
                 bound_values vs) /\
       length entries = length vs /\
       entries_of_bound vs entries = map placeholder (seq 1 M) /\
       entries_of_raw vs entries = omap raw_text vs /\
       (forall i v, vs !! i = Some v -> raw_text v = None ->
          exists k, 1 <= k /\ k <= M /\
            entries !! i = Some (placeholder k) /\
            bound_values vs !! (k - 1) = Some v) /\
       (forall i v txt, vs !! i = Some v -> raw_text v = Some txt ->
          entries !! i = Some txt)) /\
  (forall tableName,
     insert esc tableName [("a", JNull)] None = Throw TypeError /\
     update esc tableName [("a", JNull)] None None = Throw TypeError).
Proof.
  split.
  - intros tableName values options ckeys Hnull Hopt vs M.
    exists (value_entries 0 vs).
    exists (conflict_text esc (parse_conflictAction options) ckeys (own_keys values)
              (value_entries 0 vs) +:+ returning_text esc (returning_of options)).
    split; [exact (insert_shape esc tableName values options ckeys Hnull Hopt)|].
    split.
    + rewrite (update_shape esc tableName values None None Hnull).
      unfold update_text, returning_text, upd_returning_of.
      rewrite !append_nil_r. reflexivity.
    + apply numbering_of_entries.
  - intros tableName; split; reflexivity.
Qed.

Lemma C1_placeholders_numbered_in_order_witness :
  null_free three_columns /\
  exists entries tail,
    insert quoted "t" three_columns None =
      Return ("INSERT INTO " +:+ quoted "t" +:+ " (" +:+
              join ", " (map quoted (own_keys three_columns)) +:+ ") VALUES (" +:+
              join ", " entries +:+ tail,
              [JInt 7; JStr "x"]) /\
    update quoted "t" three_columns None None =
      Return ("UPDATE " +:+ quoted "t" +:+ " SET " +:+
              join ", " (set_assignments quoted (own_keys three_columns) entries),
              [JInt 7; JStr "x"]) /\
    length entries = 3 /\
    entries_of_bound (column_values three_columns) entries = ["$1"; "$2"] /\
    entries_of_raw (column_values three_columns) entries = ["now()"].
Proof.
  assert (Hnull : null_free three_columns) by (repeat constructor; discriminate).
  split; [exact Hnull|].
  destruct (proj1 (C1_placeholders_numbered_in_order quoted)
              "t" three_columns None [] Hnull (or_introl eq_refl))
    as (entries & tail & Hins & Hupd & Hlen & Hb & Hr & _).
  exists entries, tail. repeat split; assumption.
Defined.

Lemma parse_conflictAction_ignore o :
  conflictAction o = Some "ignore" -> parse_conflictAction (Some o) = CIgnore.
Proof. unfold parse_conflictAction. intros ->. reflexivity. Qed.

Lemma parse_conflictAction_update o :
  conflictAction o = Some "update" -> parse_conflictAction (Some o) = CUpdate.
Proof. unfold parse_conflictAction. intros ->. reflexivity. Qed.

Lemma upsert_assignments_length esc ckeys keys : forall entries,
  length entries = length keys ->
  length (upsert_assignments esc ckeys keys entries) =
  length (List.filter (fun k => negb (in_keys ckeys k)) keys).
Proof.
  induction keys as [|k keys IH]; intros [|e entries] Hlen;
    try discriminate; [reflexivity|].
  cbn [upsert_assignments List.filter].
  destruct (in_keys ckeys k); cbn [negb length]; rewrite IH; auto.
Qed.

(** C2. The upsert of the specification yields exactly the stated text and
    parameters. In general, on a mapping without [null] and with
    [conflictKeys] given, mode [ignore] closes the VALUES list with
    [ON CONFLICT (<conflict columns>) DO NOTHING] and mode [update] with
    [ON CONFLICT (<conflict columns>) DO UPDATE SET] followed by one
    assignment [column = entry] per column outside [conflictKeys], [entry]
    being the entry that column already has in the VALUES list. *)
Theorem C2_conflict_clause (esc : string -> string) tableName values o ckeys :
  null_free values ->
  conflictKeys o = Some ckeys ->
  let keys := own_keys values in
  let entries := value_entries 0 (column_values values) in
  let head := "INSERT INTO " +:+ esc tableName +:+ " (" +:+
              join ", " (map esc keys) +:+ ") VALUES (" +:+ join ", " entries in
  let tail := returning_text esc (returning o) in
  insert quoted "users" users_row (Some (on_conflict "update" ["id"])) =
    Return ("INSERT INTO " +:+ quoted "users" +:+ " (" +:+ quoted "id" +:+ ", " +:+
            quoted "name" +:+ ") VALUES ($1, $2) ON CONFLICT (" +:+ quoted "id" +:+
            ") DO UPDATE SET " +:+ quoted "name" +:+ " = $2",
            [JInt 1; JStr "Bo"]) /\
  (conflictAction o = Some "ignore" ->
   insert esc tableName values (Some o) =
     Return (head +:+ ") ON CONFLICT (" +:+ join "," (conflict_columns esc ckeys keys) +:+
             ") DO NOTHING" +:+ tail,
             bound_values (column_values values))) /\
  (conflictAction o = Some "update" ->
   insert esc tableName values (Some o) =
     Return (head +:+ ") ON CONFLICT (" +:+ join "," (conflict_columns esc ckeys keys) +:+
             ") DO UPDATE SET " +:+ join ", " (upsert_assignments esc ckeys keys entries) +:+
             tail,
             bound_values (column_values values)) /\
   length (upsert_assignments esc ckeys keys entries) =
     length (List.filter (fun k => negb (in_keys ckeys k)) keys)).
Proof.
  intros Hnull Hkeys keys entries head tail.
  split; [vm_compute; reflexivity|].
  assert (Hopt : forall act, act = CNone \/ keys_of_options (Some o) = Some ckeys)
    by (intros; right; exact Hkeys).
  split.
  - intros Hact.
    rewrite (insert_shape esc tableName values (Some o) ckeys Hnull (Hopt _)).
    rewrite (parse_conflictAction_ignore o Hact).
    subst head tail keys entries. unfold insert_text, conflict_text, returning_of.
    flatten_text. reflexivity.
  - intros Hact. split.
    + rewrite (insert_shape esc tableName values (Some o) ckeys Hnull (Hopt _)).
      rewrite (parse_conflictAction_update o Hact).
      subst head tail keys entries. unfold insert_text, conflict_text, returning_of.
      flatten_text. reflexivity.
    + apply upsert_assignments_length.
      subst entries keys. rewrite value_entries_length.
      unfold column_values. apply length_map.
Qed.

Lemma C2_conflict_clause_witness :
  null_free users_row /\
  conflictKeys (on_conflict "update" ["id"]) = Some ["id"] /\
  insert quoted "users" users_row (Some (on_conflict "update" ["id"])) =
    Return ("INSERT INTO " +:+ quoted "users" +:+ " (" +:+
            join ", " (map quoted ["id"; "name"]) +:+ ") VALUES (" +:+
            join ", " ["$1"; "$2"] +:+ ") ON CONFLICT (" +:+
            join "," [quoted "id"] +:+ ") DO UPDATE SET " +:+
            join ", " [quoted "name" +:+ " = $2"] +:+ EmptyString,
            [JInt 1; JStr "Bo"]).
Proof.
  assert (Hnull : null_free users_row) by (repeat constructor; discriminate).
  split; [exact Hnull|]. split; [reflexivity|].
  exact (proj1 (proj2 (proj2
    (C2_conflict_clause quoted "users" users_row (on_conflict "update" ["id"]) ["id"]
       Hnull eq_refl)) eq_refl)).
Defined.

Lemma strict_eq_int_inv v k :
  strict_eq_int v k = true -> k <> 0%N -> v = JInt k.
Proof.
  unfold strict_eq_int, JInt.
  destruct v as [| | b | [|neg m|neg] | z | s | props | elems]; try discriminate.
  intros H Hk. apply andb_prop in H as [Hm Hneg].
  apply N.eqb_eq in Hm. subst m.
  destruct neg; [|reflexivity].
  cbn in Hneg. apply N.eqb_eq in Hneg. contradiction.
Qed.

Lemma where_step_object esc where_ acc col props :
  lookup_prop where_ col = JObj props ->
  where_step esc where_ acc col =
  if not_nullish (lookup_prop props "value") &&
     not_nullish (lookup_prop props "operator")
  then where_dispatch (esc col) (JObj props)
         (push_param acc (lookup_prop props "value"))
  else Return {| w_params := w_params acc ++ [JObj props];
                 w_conditions := w_conditions acc ++
                   [esc col +:+ " = $" +:+ toString (length (w_params acc) + 1)] |}.
Proof.
  intros Hw. unfold where_step, is_condition. rewrite Hw.
  cbn [typeof get_prop bind]. change (String.eqb "object" "object") with true.
  cbn iota.
  destruct (not_nullish (lookup_prop props "value")); cbn [bind andb];
    [destruct (not_nullish (lookup_prop props "operator")); cbn [bind]|];
    try reflexivity;
    unfold push_condition, push_param; cbn [w_params w_conditions];
    rewrite length_app; reflexivity.
Qed.

(** C3. An entry of a WHERE clause that is a condition object with a
    non-null [value] and operator [Between] appends [value] and then
    [betweenUpperValue] to the parameter list and emits
    [column BETWEEN $(n-1) AND $n], [n] being the length of the list after
    both; the entries before and after it are processed around it from the
    same list. In [update] that list starts as the parameters of the SET
    clause, so the update of the specification yields
    [... WHERE "id" BETWEEN $2 AND $3] with parameters [5, 10, 20]. *)
Theorem C3_between_binds_two_parameters (esc : string -> string)
    where_ col props acc :
  lookup_prop where_ col = JObj props ->
  not_nullish (lookup_prop props "value") = true ->
  strict_eq_int (lookup_prop props "operator") Between = true ->
  let value := lookup_prop props "value" in
  let upper := lookup_prop props "betweenUpperValue" in
  let n := length (w_params acc) + 2 in
  let after :=
    {| w_params := w_params acc ++ [value; upper];
       w_conditions := w_conditions acc ++
         [esc col +:+ " BETWEEN $" +:+ toString (n - 1) +:+ " AND $" +:+ toString n] |} in
  where_step esc where_ acc col = Return after /\
  (forall pre post acc0,
     where_loop esc where_ pre acc0 = Return acc ->
     where_loop esc where_ (pre ++ col :: post) acc0 =
     where_loop esc where_ post after) /\
  (forall tableName values options,
     null_free values ->
     update esc tableName values (Some where_) options =
     bind (where_loop esc where_ (own_keys where_)
             {| w_params := bound_values (column_values values);
                w_conditions := [] |})
          (fun last =>
             Return (update_text esc tableName (own_keys values)
                       (value_entries 0 (column_values values)) +:+
                     " WHERE " +:+ join ", " (w_conditions last) +:+
                     returning_text esc (upd_returning_of options),
                     w_params last))) /\
  update quoted "t" [("x", JInt 5)] (Some between_10_20) None =
    Return ("UPDATE " +:+ quoted "t" +:+ " SET " +:+ quoted "x" +:+ " = $1 WHERE " +:+
            quoted "id" +:+ " BETWEEN $2 AND $3",
            [JInt 5; JInt 10; JInt 20]).
Proof.
  intros Hw Hvalue Hop value upper n after.
  assert (Hstep : where_step esc where_ acc col = Return after).
  { rewrite (where_step_object esc where_ acc col props Hw).
    rewrite Hvalue.
    rewrite (strict_eq_int_inv _ _ Hop) by discriminate. cbn [not_nullish JInt andb].
    unfold where_dispatch. cbn [get_prop bind].
    rewrite (strict_eq_int_inv _ _ Hop) by discriminate.
    cbn [strict_eq_int JInt Between Equal NotEqual Less LessOrEqual Greater
         GreaterOrEqual N.eqb Pos.eqb andb negb orb].
    cbn [bind]. unfold push_condition, push_param. cbn [w_params w_conditions].
    subst after n value upper. rewrite <- app_assoc. cbn [app].
    rewrite !length_app. cbn [length].
    replace (length (w_params acc) + 2 - 1) with (length (w_params acc) + 1) by lia.
    reflexivity. }
  split; [exact Hstep|]. split; [|split].
  - intros pre post acc0 Hpre.
    rewrite where_loop_app, Hpre. cbn [bind where_loop].
    rewrite Hstep. reflexivity.
  - intros tableName values options Hnull.
    rewrite (update_shape esc tableName values (Some where_) options Hnull).
    unfold where_text. reflexivity.
  - vm_compute. reflexivity.
Qed.

Lemma C3_between_binds_two_parameters_witness :
  lookup_prop between_10_20 "id" = condition (JInt 10) Between (Some (JInt 20)) /\
  where_step quoted between_10_20 {| w_params := [JInt 5]; w_conditions := [] |} "id" =
  Return {| w_params := [JInt 5; JInt 10; JInt 20];
            w_conditions := [quoted "id" +:+ " BETWEEN $2 AND $3"] |}.
Proof.
  split; [reflexivity|].
  exact (proj1 (C3_between_binds_two_parameters quoted between_10_20 "id" _
                  {| w_params := [JInt 5]; w_conditions := [] |}
                  eq_refl eq_refl eq_refl)).
Defined.

(** C4. [update] and [delete] put the fragments of a WHERE clause, none of
    whose entries is [null], after [" WHERE "] with [", "] between every
    two of them; two entries give [... WHERE "a" = $1, "b" = $2]. *)
Theorem C4_conditions_joined_by_comma (esc : string -> string)
    tableName values where_ options :
  null_free values ->
  null_free where_ ->
  (exists last,
     where_loop esc where_ (own_keys where_)
       {| w_params := []; w_conditions := [] |} = Return last /\
     delete esc tableName (Some where_) options =
       Return ("DELETE FROM " +:+ esc tableName +:+ " WHERE " +:+
               join ", " (w_conditions last) +:+
               returning_text esc (upd_returning_of options),
               w_params last)) /\
  (exists last,
     where_loop esc where_ (own_keys where_)
       {| w_params := bound_values (column_values values);
          w_conditions := [] |} = Return last /\
     update esc tableName values (Some where_) options =
       Return (update_text esc tableName (own_keys values)
                 (value_entries 0 (column_values values)) +:+ " WHERE " +:+
               join ", " (w_conditions last) +:+
               returning_text esc (upd_returning_of options),
               w_params last)) /\
  (forall first second others,
     join ", " (first :: second :: others) =
     first +:+ ", " +:+ join ", " (second :: others)) /\
  delete quoted "t" (Some two_conditions) None =
    Return ("DELETE FROM " +:+ quoted "t" +:+ " WHERE " +:+ quoted "a" +:+
            " = $1, " +:+ quoted "b" +:+ " = $2",
            [JInt 1; JStr "x"]) /\
  update quoted "t" [("x", JInt 5)] (Some two_conditions) None =
    Return ("UPDATE " +:+ quoted "t" +:+ " SET " +:+ quoted "x" +:+ " = $1 WHERE " +:+
            quoted "a" +:+ " = $2, " +:+ quoted "b" +:+ " = $3",
            [JInt 5; JInt 1; JStr "x"]).
Proof.
  intros Hvalues Hwhere. split; [|split; [|split; [|split]]].
  - destruct (where_loop_returns esc where_ (own_keys where_)
                {| w_params := []; w_conditions := [] |} Hwhere) as [last Hlast].
    exists last. split; [exact Hlast|].
    rewrite delete_shape, Hlast. reflexivity.
  - destruct (where_loop_returns esc where_ (own_keys where_)
                {| w_params := bound_values (column_values values);
                   w_conditions := [] |} Hwhere) as [last Hlast].
    exists last. split; [exact Hlast|].
    rewrite (update_shape esc tableName values (Some where_) options Hvalues), Hlast.
    reflexivity.
  - reflexivity.
  - vm_compute. reflexivity.
  - vm_compute. reflexivity.
Qed.

Lemma C4_conditions_joined_by_comma_witness :
  null_free users_row /\ null_free two_conditions /\
  exists last,
    where_loop quoted two_conditions (own_keys two_conditions)
      {| w_params := []; w_conditions := [] |} = Return last /\
    delete quoted "t" (Some two_conditions) None =
      Return ("DELETE FROM " +:+ quoted "t" +:+ " WHERE " +:+
              join ", " (w_conditions last) +:+ EmptyString,
              w_params last).
Proof.
  assert (H1 : null_free users_row) by (repeat constructor; discriminate).
  assert (H2 : null_free two_conditions) by (repeat constructor; discriminate).
  split; [exact H1|]. split; [exact H2|].
  exact (proj1 (C4_conditions_joined_by_comma quoted "t" users_row two_conditions None
                  H1 H2)).
Defined.

(** C5. The test for a raw-fragment marker gives the text of [raw] exactly
    for an object whose [raw] is a string and says "bound" for every other
    value but [null]; on [null] it throws a TypeError, so that [insert] and
    [update] of a row with a [null] value throw instead of binding it. *)
Theorem C5_null_value_is_not_classified :
  (forall v, raw_marker v =
             match v with
             | JNull => Throw TypeError
             | _ => Return (raw_text v)
             end) /\
  (forall esc tableName,
     insert esc tableName [("a", JNull)] None = Throw TypeError) /\
  (forall esc tableName,
     update esc tableName [("a", JNull)] None None = Throw TypeError) /\
  (forall esc tableName,
     insert esc tableName [("a", JUndefined)] None =
     Return ("INSERT INTO " +:+ esc tableName +:+ " (" +:+ esc "a" +:+
             ") VALUES ($1)", [JUndefined])).
Proof.
  split; [exact raw_marker_cases|].
  split; [reflexivity|]. split; [reflexivity|].
  intros esc tableName. unfold insert. cbn.
  rewrite !append_assoc. reflexivity.
Qed.

(** C10. For an entry of a WHERE clause that is an object, the operator is
    dispatched on exactly when its [value] and its [operator] are both
    neither [null] nor [undefined], and then [value] is what is appended
    first; the operator [Equal], which is [0], is dispatched on. Otherwise,
    so whenever [value] is [null] or [undefined], the object itself is
    appended to the parameters and compared as [column = $n]. *)
Theorem C10_condition_needs_value_and_operator (esc : string -> string)
    where_ col props acc :
  lookup_prop where_ col = JObj props ->
  let value := lookup_prop props "value" in
  let operator := lookup_prop props "operator" in
  let whole :=
    {| w_params := w_params acc ++ [JObj props];
       w_conditions := w_conditions acc ++
         [esc col +:+ " = $" +:+ toString (length (w_params acc) + 1)] |} in
  (not_nullish value = true -> not_nullish operator = true ->
   where_step esc where_ acc col =
     where_dispatch (esc col) (JObj props) (push_param acc value) /\
   exists after, where_step esc where_ acc col = Return after /\
     (w_params after = w_params acc ++ [value] \/
      w_params after =
        w_params acc ++ [value; lookup_prop props "betweenUpperValue"])) /\
  (not_nullish value = true -> operator = JInt Equal ->
   where_step esc where_ acc col =
     Return {| w_params := w_params acc ++ [value];
               w_conditions := w_conditions acc ++
                 [esc col +:+ " = $" +:+ toString (length (w_params acc) + 1)] |}) /\
  (not_nullish value = false -> where_step esc where_ acc col = Return whole) /\
  (not_nullish operator = false -> where_step esc where_ acc col = Return whole).
Proof.
  intros Hw value operator whole.
  pose proof (where_step_object esc where_ acc col props Hw) as Hstep.
  fold value operator whole in Hstep.
  split; [|split; [|split]].
  - intros Hv Ho. rewrite Hv, Ho in Hstep. cbn [andb] in Hstep.
    split; [exact Hstep|]. rewrite Hstep.
    unfold where_dispatch. cbn [get_prop bind]. fold operator.
    repeat match goal with
           | |- context [if ?c then _ else _] => destruct c
           end;
      cbn [bind]; eexists; (split; [reflexivity|]);
      unfold push_condition, push_param; cbn [w_params];
      rewrite <- ?app_assoc; cbn [app]; auto.
  - intros Hv Ho. rewrite Hv, Ho in Hstep. cbn [not_nullish JInt andb] in Hstep.
    rewrite Hstep. unfold where_dispatch. cbn [get_prop bind].
    fold operator. rewrite Ho. cbn.
    rewrite length_app. reflexivity.
  - intros Hv. rewrite Hv in Hstep. exact Hstep.
  - intros Ho. rewrite Ho, andb_false_r in Hstep. exact Hstep.
Qed.

Lemma C10_condition_needs_value_and_operator_witness :
  lookup_prop [("deleted", condition JNull Equal None)] "deleted" =
    condition JNull Equal None /\
  not_nullish JNull = false /\
  where_step quoted [("deleted", condition JNull Equal None)]
    {| w_params := []; w_conditions := [] |} "deleted" =
  Return {| w_params := [condition JNull Equal None];
            w_conditions := [quoted "deleted" +:+ " = $1"] |}.
Proof.
  split; [reflexivity|]. split; [reflexivity|].
  exact (proj1 (proj2 (proj2
    (C10_condition_needs_value_and_operator quoted
       [("deleted", condition JNull Equal None)] "deleted" _
       {| w_params := []; w_conditions := [] |} eq_refl))) eq_refl).
Defined.

End BuilderFacts.

(** * Properties of the transaction helper *)

Module TxFacts.

Import Tx.

Section WithClient.

Variable World : Type.
Variable QueryResult : Type.
Variable client_query : string -> World -> World * Outcome QueryResult.

Local Abbreviation query := (Tx.query World QueryResult client_query).
Local Abbreviation run := (Tx.run World QueryResult client_query).
Local Abbreviation withTx := (Tx.withTx World QueryResult client_query).

Lemma query_issued sql st : issued (fst (query sql st)) = issued st ++ [sql].
Proof.
  unfold Tx.query. destruct (client_query sql (world st)) as [w r]. reflexivity.
Qed.

Lemma run_extends {R} (cb : Work QueryResult R) : forall st,
  exists more, issued (fst (run cb st)) = issued st ++ more.
Proof.
  induction cb as [r | sql k IH]; intros st.
  - exists []. cbn. rewrite app_nil_r. reflexivity.
  - cbn [Tx.run].
    pose proof (query_issued sql st) as Hq.
    destruct (query sql st) as [st' r]. cbn [fst] in Hq.
    destruct (IH r st') as [more Hmore].
    exists (sql :: more). rewrite Hmore, Hq, <- app_assoc. reflexivity.
Qed.

Lemma rollback_and_rethrow_spec {R} err st :
  snd (Tx.rollback_and_rethrow World QueryResult client_query (R := R) err st) = Throw err /\
  issued (fst (Tx.rollback_and_rethrow World QueryResult client_query (R := R) err st)) =
    issued st ++ ["ROLLBACK"].
Proof.
  unfold Tx.rollback_and_rethrow.
  pose proof (query_issued "ROLLBACK" st) as Hq.
  destruct (query "ROLLBACK" st) as [st' r]. cbn [fst snd] in *. auto.
Qed.

(** C9. [withTx] issues [BEGIN] before anything else. When [BEGIN] went
    through and the unit of work returns, [COMMIT] is issued next; if
    [COMMIT] goes through the result of the unit of work is returned, and if
    [COMMIT] throws, [ROLLBACK] is issued and the error of [COMMIT] is what
    the caller gets. When the unit of work throws, [ROLLBACK] is issued next
    and the caller gets the error of the unit of work whatever [ROLLBACK]
    itself does. When [BEGIN] throws nothing else is issued. *)
Theorem C9_withTx_outcomes {R} (cb : Work QueryResult R) st :
  let begun := query "BEGIN" st in
  let worked := run cb (fst begun) in
  let committed := query "COMMIT" (fst worked) in
  let final := withTx cb st in
  (exists rest, issued (fst final) = issued st ++ "BEGIN" :: rest) /\
  (forall e, snd begun = Throw e ->
     snd final = Throw e /\ issued (fst final) = issued st ++ ["BEGIN"]) /\
  (forall b res c, snd begun = Return b -> snd worked = Return res ->
     snd committed = Return c ->
     snd final = Return res /\
     issued (fst final) = issued (fst worked) ++ ["COMMIT"]) /\
  (forall b res e, snd begun = Return b -> snd worked = Return res ->
     snd committed = Throw e ->
     snd final = Throw e /\
     issued (fst final) = issued (fst worked) ++ ["COMMIT"; "ROLLBACK"]) /\
  (forall b err, snd begun = Return b -> snd worked = Throw err ->
     snd final = Throw err /\
     issued (fst final) = issued (fst worked) ++ ["ROLLBACK"]).
Proof.
  cbn zeta. unfold Tx.withTx.
  pose proof (query_issued "BEGIN" st) as Hb.
  destruct (query "BEGIN" st) as [st1 b]. cbn [fst snd] in *.
  destruct b as [b|e].
  - destruct (run_extends cb st1) as [more Hmore].
    pose proof (query_issued "COMMIT" (fst (run cb st1))) as Hc.
    destruct (run cb st1) as [st2 r]. cbn [fst snd] in *.
    destruct r as [res|err].
    + destruct (query "COMMIT" st2) as [st3 c]. cbn [fst snd] in *.
      destruct c as [c|e].
      * cbn [fst snd]. split; [|repeat split; intros; try congruence].
        exists (more ++ ["COMMIT"]).
        rewrite Hc, Hmore, Hb, <- !app_assoc. reflexivity.
      * destruct (rollback_and_rethrow_spec (R := R) e st3) as [Ho Hi].
        split; [|repeat split; intros; try congruence].
        -- exists (more ++ ["COMMIT"; "ROLLBACK"]).
           rewrite Hi, Hc, Hmore, Hb, <- !app_assoc. reflexivity.
        -- rewrite Hi, Hc, <- app_assoc. reflexivity.
    + destruct (rollback_and_rethrow_spec (R := R) err st2) as [Ho Hi].
      split; [|repeat split; intros; try congruence].
      exists (more ++ ["ROLLBACK"]).
      rewrite Hi, Hmore, Hb, <- !app_assoc. reflexivity.
  - cbn [fst snd]. split; [|repeat split; intros; try congruence].
    exists []. exact Hb.
Qed.

End WithClient.

Lemma C9_withTx_outcomes_witness :
  snd (query nat unit (scripted ["ROLLBACK"]) "BEGIN" fresh) = Return tt /\
  snd (run nat unit (scripted ["ROLLBACK"]) failing_work
         (fst (query nat unit (scripted ["ROLLBACK"]) "BEGIN" fresh))) =
    Throw (Thrown (JStr "boom")) /\
  snd (withTx nat unit (scripted ["ROLLBACK"]) failing_work fresh) =
    Throw (Thrown (JStr "boom")) /\
  issued (fst (withTx nat unit (scripted ["ROLLBACK"]) failing_work fresh)) =
    ["BEGIN"; "INSERT INTO t VALUES (1)"] ++ ["ROLLBACK"].
Proof.
  split; [reflexivity|]. split; [reflexivity|].
  exact (proj2 (proj2 (proj2 (proj2
    (C9_withTx_outcomes nat unit (scripted ["ROLLBACK"]) failing_work fresh))))
    tt (Thrown (JStr "boom")) eq_refl eq_refl).
Defined.

(** C9, as stated, fails when [COMMIT] is rejected: the unit of work has
    returned [1], yet the caller gets the error of [COMMIT], after a
    [ROLLBACK]. *)
Lemma C9_commit_rejected_counterexample :
  snd (run nat unit (scripted ["COMMIT"]) returning_work
         (fst (query nat unit (scripted ["COMMIT"]) "BEGIN" fresh))) = Return 1 /\
  issued (fst (withTx nat unit (scripted ["COMMIT"]) returning_work fresh)) =
    ["BEGIN"; "COMMIT"; "ROLLBACK"] /\
  snd (withTx nat unit (scripted ["COMMIT"]) returning_work fresh) =
    Throw (Thrown (JStr "COMMIT")) /\
  snd (withTx nat unit (scripted ["COMMIT"]) returning_work fresh) <> Return 1.
Proof.
  split; [reflexivity|]. split; [reflexivity|]. split; [reflexivity|].
  vm_compute. discriminate.
Qed.

End TxFacts.

(** * Properties of the decoders and of their registration *)

Module ParserFacts.

Import Parser.

Lemma registerParsers_initialized r : initialized (registerParsers r) = true.
Proof.
  unfold registerParsers. destruct (initialized r) eqn:Hi; [exact Hi | reflexivity].
Qed.

Lemma registerParsers_twice r :
  registerParsers (registerParsers r) = registerParsers r.
Proof.
  unfold registerParsers at 1. rewrite registerParsers_initialized. reflexivity.
Qed.

(** C8. Calling [registerParsers] any number of times greater than zero
    leaves the registry as one call does: the first call sets
    [initialized], and a call that finds it set changes nothing. *)
Theorem C8_registerParsers_idempotent :
  (forall r, initialized (registerParsers r) = true) /\
  (forall r, registerParsers (registerParsers r) = registerParsers r) /\
  (forall n r, Nat.iter (S n) registerParsers r = registerParsers r) /\
  getTypeParser (registerParsers blank) INT8 text = Some F_parseDbBigInteger.
Proof.
  split; [exact registerParsers_initialized|].
  split; [exact registerParsers_twice|].
  split; [|vm_compute; reflexivity].
  induction n as [|n IH]; intros r; [reflexivity|].
  change (Nat.iter (S (S n)) registerParsers r)
    with (registerParsers (Nat.iter (S n) registerParsers r)).
  rewrite IH. apply registerParsers_twice.
Qed.

Lemma mapT_ext {A B} (f g : A -> T B) l :
  (forall x, f x = g x) -> mapT f l = mapT g l.
Proof.
  intros H. induction l as [|x l IH]; [reflexivity|].
  cbn [mapT]. rewrite H, IH. reflexivity.
Qed.

(** Whether [postgres-array] calls the function it is given on [null]
    entries or not, [parse] keeps them as [null] and calls [transform] on
    the others only. *)
Lemma materialize_createArrayParser ext value transform :
  materialize (createArrayParser ext value transform) =
  mapT (fun entry =>
          match entry with
          | None => ([], Return (DVal JNull))
          | Some _ => transform entry
          end)
       (array_entries ext value).
Proof.
  unfold materialize, createArrayParser, parseArray_parse.
  apply mapT_ext. intros [e|]; [reflexivity|].
  destruct (array_calls_on_null ext); reflexivity.
Qed.

(** C7. Every decoder that [registerParsers] installs, but the one for
    BYTEA, returns [null] for [null] without calling any transform, and
    [parse] of an array decoder keeps [null] entries as [null] without
    calling the element transform on them. The decoder installed for BYTEA
    is [postgres-bytea] itself: for [null] it calls that transform, and when
    the transform throws, so does the decoder. *)
Theorem C7_null_reaches_bytea_transform :
  Forall (fun '(oid, format, f) =>
            f = F_parseByteA \/
            forall ext, run_parser ext f None = ([], Return (DVal JNull)))
         registrations /\
  (forall ext value transform,
     materialize (createArrayParser ext value transform) =
     mapT (fun entry =>
             match entry with
             | None => ([], Return (DVal JNull))
             | Some _ => transform entry
             end)
          (array_entries ext value)) /\
  getTypeParser (registerParsers blank) BYTEA binary = Some F_parseByteA /\
  (forall ext,
     fst (run_parser ext F_parseByteA None) = [(ParseByteA, None)] /\
     snd (run_parser ext F_parseByteA None) =
       bind (parseByteA ext None) (fun b => Return (DVal b))) /\
  run_parser throwing F_parseByteA None =
    ([(ParseByteA, None)], Throw (Thrown (JStr "parseByteA called"))).
Proof.
  split.
  { unfold registrations.
    repeat (apply Forall_cons; split;
            [first [left; reflexivity | right; intros ext; reflexivity]|]).
    apply Forall_nil. exact I. }
  split; [exact materialize_createArrayParser|].
  split; [vm_compute; reflexivity|].
  split; [|reflexivity].
  intros ext. unfold run_parser, parseByteA_fn, call, bindT.
  destruct (parseByteA ext None); split; reflexivity.
Qed.

(** *** The 64-bit integer decoder *)

Lemma to_double_small neg m :
  (m <= MAX_SAFE_INTEGER)%N -> to_double neg m = Finite neg m.
Proof.
  intros Hm. unfold to_double.
  replace (m <? two53)%N with true; [reflexivity|].
  symmetry. apply N.ltb_lt. unfold MAX_SAFE_INTEGER, two53 in *. lia.
Qed.

Lemma to_double_large neg m :
  (MAX_SAFE_INTEGER < m)%N -> in_safe_range (to_double neg m) = false.
Proof.
  intros Hm. unfold to_double.
  replace (m <? two53)%N with false
    by (symmetry; apply N.ltb_ge; unfold MAX_SAFE_INTEGER, two53 in *; lia).
  set (e := (N.log2 m - 52)%N).
  set (q := N.shiftr m e).
  set (q' := if (_ || _)%bool then (q + 1)%N else q).
  destruct (N.shiftl 1 1024 <=? N.shiftl q' e)%N; [reflexivity|].
  cbn [in_safe_range]. apply N.leb_gt.
  assert (H53 : (2 ^ 53 <= m)%N).
  { change (2 ^ 53)%N with two53. unfold MAX_SAFE_INTEGER, two53 in *. lia. }
  assert (Hlog : (53 <= N.log2 m)%N).
  { change 53%N with (N.log2 (2 ^ 53)). apply N.log2_le_mono. exact H53. }
  assert (Hpow : (2 ^ N.log2 m <= m)%N).
  { apply N.log2_spec. lia. }
  assert (He : (N.log2 m = 52 + e)%N) by (subst e; lia).
  assert (He1 : (1 <= e)%N) by lia.
  assert (Hq : (2 ^ 52 <= q)%N).
  { subst q. rewrite N.shiftr_div_pow2.
    apply N.div_le_lower_bound; [apply N.pow_nonzero; discriminate|].
    rewrite He, N.pow_add_r in Hpow. lia. }
  assert (Hq' : (q <= q')%N).
  { subst q'. destruct (_ || _)%bool; lia. }
  rewrite N.shiftl_mul_pow2.
  assert (H2e : (2 ^ 1 <= 2 ^ e)%N) by (apply N.pow_le_mono_r; [discriminate | exact He1]).
  change (2 ^ 1)%N with 2%N in H2e.
  assert (Hprod : (2 ^ 52 * 2 <= q' * 2 ^ e)%N).
  { apply N.mul_le_mono; lia. }
  change (2 ^ 52 * 2)%N with 9007199254740992%N in Hprod.
  unfold MAX_SAFE_INTEGER. lia.
Qed.

Lemma leading_digits_string_of_uint d :
  leading_digits (NilEmpty.string_of_uint d) = d.
Proof.
  induction d; cbn [NilEmpty.string_of_uint leading_digits]; rewrite ?IHd; reflexivity.
Qed.

Lemma all_digits_string_of_uint d :
  all_digits (NilEmpty.string_of_uint d) = true.
Proof.
  induction d; cbn [NilEmpty.string_of_uint all_digits]; rewrite ?IHd; reflexivity.
Qed.

Lemma digit_not_white c : is_digit c = true -> is_white c = false.
Proof.
  unfold is_digit, is_white. cbn zeta. intros H.
  apply andb_prop in H as [H1 H2]. apply N.leb_le in H1, H2.
  repeat match goal with
         | |- context [(?a <=? ?b)%N] => destruct (N.leb_spec a b)
         | |- context [(?a =? ?b)%N] => destruct (N.eqb_spec a b)
         end; try reflexivity; lia.
Qed.

Lemma digit_not_char c x :
  is_digit c = true -> is_digit x = false -> Ascii.eqb c x = false.
Proof.
  intros Hc Hx. destruct (Ascii.eqb_spec c x); [congruence | reflexivity].
Qed.

Lemma trim_start_digit c rest :
  is_digit c = true -> trim_start (String c rest) = String c rest.
Proof. intros H. cbn [trim_start]. rewrite (digit_not_white c H). reflexivity. Qed.

Lemma trim_end_digits s : all_digits s = true -> trim_end s = s.
Proof.
  induction s as [|c s IH]; [reflexivity|].
  cbn [all_digits trim_end]. intros H. apply andb_prop in H as [Hc Hs].
  rewrite (IH Hs), (digit_not_white c Hc). destruct s; reflexivity.
Qed.

Lemma string_of_uint_nonempty d :
  d <> Decimal.Nil ->
  exists c rest, NilEmpty.string_of_uint d = String c rest /\ is_digit c = true.
Proof.
  destruct d; [congruence|..]; intros _; cbn [NilEmpty.string_of_uint];
    eexists; eexists; (split; [reflexivity|reflexivity]).
Qed.

Lemma radix_prefix_digits c rest :
  is_digit c = true -> all_digits rest = true ->
  radix_prefix (String c rest) = None.
Proof.
  intros Hc Hrest. destruct rest as [|c1 rest]; [reflexivity|].
  cbn [all_digits] in Hrest. apply andb_prop in Hrest as [Hc1 _].
  cbn [radix_prefix].
  rewrite !(digit_not_char c1) by (assumption || reflexivity).
  destruct (Ascii.eqb c "0"); reflexivity.
Qed.

Lemma parseInt10_positive p :
  parseInt10 (NilEmpty.string_of_uint (Pos.to_uint p)) = to_double false (Npos p).
Proof.
  pose proof (DecimalPos.Unsigned.to_uint_nonnil p) as Hnil.
  destruct (string_of_uint_nonempty _ Hnil) as (c & rest & Hs & Hc).
  unfold parseInt10. rewrite Hs, (trim_start_digit c rest Hc).
  cbn [strip_sign]. rewrite !(digit_not_char c) by (assumption || reflexivity).
  rewrite <- Hs, leading_digits_string_of_uint.
  pose proof (DecimalPos.Unsigned.of_to p) as Hof.
  fold (N.of_uint (Pos.to_uint p)) in Hof.
  destruct (Pos.to_uint p); [congruence|..]; rewrite <- Hof; reflexivity.
Qed.

Lemma parseInt10_negative p :
  parseInt10 (String "-" (NilEmpty.string_of_uint (Pos.to_uint p))) =
  to_double true (Npos p).
Proof.
  pose proof (DecimalPos.Unsigned.to_uint_nonnil p) as Hnil.
  unfold parseInt10. cbn [trim_start].
  change (is_white "-") with false. cbn iota. cbn [strip_sign].
  change (Ascii.eqb "-" "-") with true. cbn iota.
  rewrite leading_digits_string_of_uint.
  pose proof (DecimalPos.Unsigned.of_to p) as Hof.
  fold (N.of_uint (Pos.to_uint p)) in Hof.
  destruct (Pos.to_uint p); [congruence|..]; rewrite <- Hof; reflexivity.
Qed.

Lemma StringToBigInt_positive p :
  StringToBigInt (NilEmpty.string_of_uint (Pos.to_uint p)) = Some (Zpos p).
Proof.
  pose proof (DecimalPos.Unsigned.to_uint_nonnil p) as Hnil.
  pose proof (all_digits_string_of_uint (Pos.to_uint p)) as Hall.
  destruct (string_of_uint_nonempty _ Hnil) as (c & rest & Hs & Hc).
  unfold StringToBigInt. rewrite Hs in Hall |- *.
  rewrite (trim_start_digit c rest Hc), (trim_end_digits _ Hall).
  cbn [all_digits] in Hall. apply andb_prop in Hall as [_ Hrest].
  rewrite (radix_prefix_digits c rest Hc Hrest).
  unfold signed_decimal. cbn [strip_sign].
  rewrite !(digit_not_char c) by (assumption || reflexivity).
  rewrite <- Hs, NilEmpty.usu.
  unfold N.of_uint. rewrite DecimalPos.Unsigned.of_to. reflexivity.
Qed.

Lemma StringToBigInt_negative p :
  StringToBigInt (String "-" (NilEmpty.string_of_uint (Pos.to_uint p))) =
  Some (Zneg p).
Proof.
  pose proof (DecimalPos.Unsigned.to_uint_nonnil p) as Hnil.
  pose proof (all_digits_string_of_uint (Pos.to_uint p)) as Hall.
  destruct (string_of_uint_nonempty _ Hnil) as (c & rest & Hs & Hc).
  unfold StringToBigInt. cbn [trim_start].
  change (is_white "-") with false. cbn iota.
  cbn [trim_end]. rewrite (trim_end_digits _ Hall). rewrite Hs.
  change (is_white "-") with false.
  cbn [radix_prefix]. change (Ascii.eqb "-" "0") with false. cbn iota.
  unfold signed_decimal. cbn [strip_sign].
  change (Ascii.eqb "-" "-") with true. cbn iota.
  rewrite <- Hs, NilEmpty.usu.
  unfold N.of_uint. rewrite DecimalPos.Unsigned.of_to. reflexivity.
Qed.

Lemma parseDbBigInteger_outcome text :
  snd (parseDbBigInteger (Some text)) =
  if in_safe_range (parseInt10 text)
  then Return (DVal (JNum (parseInt10 text)))
  else match StringToBigInt text with
       | Some z => Return (DVal (JBigInt z))
       | None => Throw SyntaxError
       end.
Proof.
  unfold parseDbBigInteger, call, try_catch, bindT, ret, BigInt.
  destruct (in_safe_range (parseInt10 text)); cbn; [reflexivity|].
  destruct (StringToBigInt text); reflexivity.
Qed.

Lemma parseDbBigInteger_decimal_text z :
  snd (parseDbBigInteger (Some (decimal_text z))) =
  if (Z.abs z <=? 9007199254740991)%Z
  then Return (DVal (JNum (Finite (z <? 0)%Z (Z.abs_N z))))
  else Return (DVal (JBigInt z)).
Proof.
  rewrite parseDbBigInteger_outcome.
  destruct z as [|p|p]; [reflexivity|..]; cbn [decimal_text].
  - change (Z.abs (Z.pos p)) with (Z.pos p).
    change (Z.abs_N (Z.pos p)) with (N.pos p).
    change (Z.pos p <? 0)%Z with false.
    rewrite parseInt10_positive, StringToBigInt_positive.
    destruct (Z.leb_spec (Zpos p) 9007199254740991) as [Hle|Hgt].
    + rewrite to_double_small by (unfold MAX_SAFE_INTEGER; lia).
      cbn [in_safe_range].
      replace (N.pos p <=? MAX_SAFE_INTEGER)%N with true; [reflexivity|].
      symmetry. apply N.leb_le. unfold MAX_SAFE_INTEGER. lia.
    + rewrite to_double_large by (unfold MAX_SAFE_INTEGER; lia). reflexivity.
  - change (Z.abs (Z.neg p)) with (Z.pos p).
    change (Z.abs_N (Z.neg p)) with (N.pos p).
    change (Z.neg p <? 0)%Z with true.
    rewrite parseInt10_negative, StringToBigInt_negative.
    destruct (Z.leb_spec (Zpos p) 9007199254740991) as [Hle|Hgt].
    + rewrite to_double_small by (unfold MAX_SAFE_INTEGER; lia).
      cbn [in_safe_range].
      replace (N.pos p <=? MAX_SAFE_INTEGER)%N with true; [reflexivity|].
      symmetry. apply N.leb_le. unfold MAX_SAFE_INTEGER. lia.
    + rewrite to_double_large by (unfold MAX_SAFE_INTEGER; lia). reflexivity.
Qed.

(** C6. For a text, the 64-bit decoder returns the number [parseInt] reads
    in base 10 when that number is in the safe range; otherwise it hands the
    text itself to [BigInt], returning the integer the text denotes and
    throwing a SyntaxError when it denotes none. On the decimal text of an
    integer this is the number itself up to [2^53 - 1] in absolute value and
    the exact arbitrary-precision integer beyond: ["9007199254740993"]
    gives the arbitrary-precision [9007199254740993], ["42"] the number 42. *)
Theorem C6_big_integer_decoder :
  (forall text,
     snd (parseDbBigInteger (Some text)) =
     if in_safe_range (parseInt10 text)
     then Return (DVal (JNum (parseInt10 text)))
     else match StringToBigInt text with
          | Some z => Return (DVal (JBigInt z))
          | None => Throw SyntaxError
          end) /\
  (forall z : Z,
     snd (parseDbBigInteger (Some (decimal_text z))) =
     if (Z.abs z <=? 9007199254740991)%Z
     then Return (DVal (JNum (Finite (z <? 0)%Z (Z.abs_N z))))
     else Return (DVal (JBigInt z))) /\
  decimal_text 9007199254740993 = "9007199254740993" /\
  snd (parseDbBigInteger (Some "9007199254740993")) =
    Return (DVal (JBigInt 9007199254740993)) /\
  snd (parseDbBigInteger (Some "42")) = Return (DVal (JInt 42)).
Proof.
  split; [exact parseDbBigInteger_outcome|].
  split; [exact parseDbBigInteger_decimal_text|].
  split; [vm_compute; reflexivity|].
  split; vm_compute; reflexivity.
Qed.

(** C6, as stated, fails on a text that is no integer: ["abc"] is outside
    the safe range as [parseInt] reads it, and the decoder throws instead of
    returning an arbitrary-precision integer. *)
Lemma C6_not_an_integer_counterexample :
  in_safe_range (parseInt10 "abc") = false /\
  snd (parseDbBigInteger (Some "abc")) = Throw SyntaxError /\
  ~ (exists v, snd (parseDbBigInteger (Some "abc")) = Return v).
Proof.
  split; [reflexivity|]. split; [reflexivity|].
  intros [v Hv]. vm_compute in Hv. discriminate.
Qed.

End ParserFacts.

(** * Further properties of the statement builder *)

Module BuilderMoreFacts.

Import Builder BuilderMore BuilderFacts.

Section Returning.

Variable esc : string -> string.

Lemma insert_loop_without_returning values act o keys : forall acc,
  insert_loop esc values act (Some (without_returning o)) keys acc =
  insert_loop esc values act (Some o) keys acc.
Proof.
  induction keys as [|k keys IH]; intros acc; [reflexivity|].
  cbn [insert_loop].
  replace (insert_step esc values act (Some (without_returning o)) acc k)
    with (insert_step esc values act (Some o) acc k) by reflexivity.
  destruct (insert_step esc values act (Some o) acc k); cbn [bind];
    [apply IH | reflexivity].
Qed.

Lemma join_addReturning sql ret :
  join EmptyString (addReturningToSQL esc sql ret) =
  join EmptyString sql +:+ returning_text esc ret.
Proof.
  unfold addReturningToSQL, returning_text.
  destruct ret as [items|]; flatten_text; reflexivity.
Qed.

(** X1. The RETURNING clause is put after everything else and binds
    nothing: a call with [returning] gives the statement of the same call
    without it, followed by [" RETURNING "] and the expressions joined by
    [", "], with the same parameters, and throws when that call throws. *)
Theorem returning_is_appended_last tableName values where_ o ret :
  insert esc tableName values (Some o) =
    with_suffix (returning_text esc (returning o))
      (insert esc tableName values (Some (without_returning o))) /\
  update esc tableName values where_ (Some {| upd_returning := ret |}) =
    with_suffix (returning_text esc ret)
      (update esc tableName values where_ None) /\
  delete esc tableName where_ (Some {| upd_returning := ret |}) =
    with_suffix (returning_text esc ret)
      (delete esc tableName where_ None).
Proof.
  split; [|split].
  - unfold insert, with_suffix.
    replace (parse_conflictAction (Some (without_returning o)))
      with (parse_conflictAction (Some o)) by reflexivity.
    rewrite insert_loop_without_returning.
    destruct (insert_loop esc values _ (Some o) (own_keys values) empty_insert)
      as [acc|e]; cbn [bind fst snd]; [|reflexivity].
    rewrite !join_addReturning. cbn [without_returning returning returning_text].
    rewrite append_nil_r. reflexivity.
  - unfold update, with_suffix.
    destruct (update_loop esc values (own_keys values) _) as [acc|e];
      cbn [bind]; [|reflexivity].
    destruct (addWhereToSQL esc _ (u_params acc) where_) as [sp|e];
      cbn [bind fst snd]; [|reflexivity].
    rewrite !join_addReturning. cbn [upd_returning_of upd_returning returning_text].
    rewrite append_nil_r. reflexivity.
  - unfold delete, with_suffix.
    destruct (addWhereToSQL esc _ [] where_) as [sp|e];
      cbn [bind fst snd]; [|reflexivity].
    rewrite !join_addReturning. cbn [upd_returning_of upd_returning returning_text].
    rewrite append_nil_r. reflexivity.
Qed.

End Returning.

Section Failures.

Variable esc : string -> string.

Lemma insert_step_null values act options acc k :
  lookup_prop values k = JNull ->
  insert_step esc values act options acc k = Throw TypeError.
Proof. intros H. unfold insert_step. rewrite H. reflexivity. Qed.

Lemma insert_loop_null values act options ckeys keys : forall acc,
  act = CNone \/ keys_of_options options = Some ckeys ->
  Exists (fun k => lookup_prop values k = JNull) keys ->
  insert_loop esc values act options keys acc = Throw TypeError.
Proof.
  induction keys as [|k keys IH]; intros acc Hopt Hex.
  - inversion Hex.
  - cbn [insert_loop].
    destruct (lookup_prop values k) eqn:Hk;
      try (rewrite (insert_step_shape esc values act options ckeys k acc)
             by (assumption || (rewrite Hk; discriminate));
           cbn [bind]; apply IH; [assumption|];
           inversion Hex as [? ? Hnull|? ? Hrest]; subst;
           [rewrite Hk in Hnull; discriminate | exact Hrest]).
    rewrite (insert_step_null values act options acc k Hk). reflexivity.
Qed.

Lemma update_loop_null values keys : forall acc,
  Exists (fun k => lookup_prop values k = JNull) keys ->
  update_loop esc values keys acc = Throw TypeError.
Proof.
  induction keys as [|k keys IH]; intros acc Hex.
  - inversion Hex.
  - cbn [update_loop].
    destruct (lookup_prop values k) eqn:Hk;
      try (rewrite (update_step_shape esc values k acc)
             by (rewrite Hk; discriminate);
           cbn [bind]; apply IH;
           inversion Hex as [? ? Hnull|? ? Hrest]; subst;
           [rewrite Hk in Hnull; discriminate | exact Hrest]).
    unfold update_step. rewrite Hk. reflexivity.
Qed.

(** X2. With no conflict handling asked for, or with [conflictKeys] given,
    [insert] yields a statement when no column value is [null] and throws a
    TypeError as soon as one is; [update] without a WHERE clause does the
    same. *)
Theorem insert_fails_exactly_on_null tableName values options ckeys :
  parse_conflictAction options = CNone \/ keys_of_options options = Some ckeys ->
  (null_free values ->
     (exists r, insert esc tableName values options = Return r) /\
     (exists r, update esc tableName values None None = Return r)) /\
  (has_null values ->
     insert esc tableName values options = Throw TypeError /\
     update esc tableName values None None = Throw TypeError).
Proof.
  intros Hopt. split.
  - intros Hnull. split; eexists.
    + apply (insert_shape esc tableName values options ckeys Hnull Hopt).
    + apply (update_shape esc tableName values None None Hnull).
  - intros Hex. split.
    + unfold insert.
      rewrite (insert_loop_null values _ options ckeys) by assumption.
      reflexivity.
    + unfold update. rewrite update_loop_null by assumption. reflexivity.
Qed.

(** X3. Asking for conflict handling without [conflictKeys] makes [insert]
    throw a TypeError for every mapping that has a column. *)
Theorem conflict_action_needs_keys tableName values o :
  parse_conflictAction (Some o) <> CNone ->
  conflictKeys o = None ->
  values <> [] ->
  insert esc tableName values (Some o) = Throw TypeError.
Proof.
  intros Hact Hkeys Hne. unfold insert.
  destruct values as [|[k v] rest]; [congruence|].
  cbn [own_keys map fst insert_loop]. unfold insert_step.
  rewrite raw_marker_cases.
  destruct (lookup_prop ((k, v) :: rest) k); cbn [bind]; try reflexivity;
    match goal with
    | |- context [match ?r with Some _ => _ | None => _ end] => destruct r
    end;
    unfold classify_conflict, conflictKeys_includes; rewrite Hkeys;
    destruct (parse_conflictAction (Some o)); try congruence; reflexivity.
Qed.

Lemma insert_loop_no_conflict values options options' keys : forall acc,
  insert_loop esc values CNone options keys acc =
  insert_loop esc values CNone options' keys acc.
Proof.
  induction keys as [|k keys IH]; intros acc; [reflexivity|].
  cbn [insert_loop].
  replace (insert_step esc values CNone options' acc k)
    with (insert_step esc values CNone options acc k).
  - destruct (insert_step esc values CNone options acc k); cbn [bind];
      [apply IH | reflexivity].
  - unfold insert_step. destruct (raw_marker _) as [[txt|]|e]; reflexivity.
Qed.

(** X4. A [conflictAction] that is neither ["update"] nor ["ignore"], or
    none, means no conflict handling: [conflictKeys] is not looked at and the
    statement is the one of the same call without both. *)
Theorem unrecognised_conflict_action_is_ignored tableName values o :
  conflictAction o <> Some "update" ->
  conflictAction o <> Some "ignore" ->
  insert esc tableName values (Some o) =
  insert esc tableName values (Some (without_conflict o)).
Proof.
  intros Hu Hi.
  assert (Hact : parse_conflictAction (Some o) = CNone).
  { unfold parse_conflictAction. destruct (conflictAction o) as [a|]; [|reflexivity].
    destruct (String.eqb_spec a "update"); [subst; congruence|].
    destruct (String.eqb_spec a "ignore"); [subst; congruence|]. reflexivity. }
  unfold insert. rewrite Hact.
  replace (parse_conflictAction (Some (without_conflict o))) with CNone by reflexivity.
  rewrite (insert_loop_no_conflict values (Some o) (Some (without_conflict o))).
  reflexivity.
Qed.

Lemma value_entries_same_markers vs1 : forall vs2 n,
  map raw_text vs1 = map raw_text vs2 ->
  value_entries n vs1 = value_entries n vs2.
Proof.
  induction vs1 as [|v1 vs1 IH]; intros [|v2 vs2] n H; try discriminate;
    [reflexivity|].
  cbn [map] in H. injection H as Hv Hrest.
  cbn [value_entries]. rewrite Hv.
  destruct (raw_text v2); f_equal; apply IH; exact Hrest.
Qed.

(** X22. The text of an INSERT or of an UPDATE without WHERE does not
    depend on the values that are bound: two mappings without [null] that
    have the same columns and the same raw-fragment markers at the same
    columns give the same text, whatever their other values are. *)
Theorem bound_values_never_reach_the_text tableName values1 values2 options ckeys :
  null_free values1 ->
  null_free values2 ->
  parse_conflictAction options = CNone \/ keys_of_options options = Some ckeys ->
  own_keys values1 = own_keys values2 ->
  map raw_text (column_values values1) = map raw_text (column_values values2) ->
  exists sql,
    insert esc tableName values1 options =
      Return (sql, bound_values (column_values values1)) /\
    insert esc tableName values2 options =
      Return (sql, bound_values (column_values values2)) /\
    exists sql',
      update esc tableName values1 None None =
        Return (sql', bound_values (column_values values1)) /\
      update esc tableName values2 None None =
        Return (sql', bound_values (column_values values2)).
Proof.
  intros Hn1 Hn2 Hopt Hkeys Hraw.
  pose proof (value_entries_same_markers _ _ 0 Hraw) as Hentries.
  eexists. split; [apply (insert_shape esc tableName values1 options ckeys Hn1 Hopt)|].
  split.
  - rewrite (insert_shape esc tableName values2 options ckeys Hn2 Hopt).
    cbn zeta. rewrite Hkeys, Hentries. reflexivity.
  - eexists. split; [apply (update_shape esc tableName values1 None None Hn1)|].
    rewrite (update_shape esc tableName values2 None None Hn2).
    cbn zeta. rewrite Hkeys, Hentries. reflexivity.
Qed.

End Failures.

Section Where.

Variable esc : string -> string.

(** X5. A condition object with a non-null [value] and one of the six
    comparison operators binds [value] alone and emits
    [column <sign> $n], [n] being the new length of the parameter list. *)
Theorem comparison_binds_one_parameter where_ col props acc operator sign :
  lookup_prop where_ col = JObj props ->
  not_nullish (lookup_prop props "value") = true ->
  lookup_prop props "operator" = JInt operator ->
  comparison_sign operator = Some sign ->
  where_step esc where_ acc col =
  Return {| w_params := w_params acc ++ [lookup_prop props "value"];
            w_conditions := w_conditions acc ++
              [esc col +:+ " " +:+ sign +:+ " $" +:+
               toString (length (w_params acc) + 1)] |}.
Proof.
  intros Hw Hv Hop Hsign.
  rewrite (where_step_object esc where_ acc col props Hw), Hv, Hop.
  cbn [JInt not_nullish andb]. unfold where_dispatch. cbn [get_prop bind].
  rewrite Hop. unfold push_condition, push_param. cbn [w_params w_conditions].
  rewrite length_app. cbn [length].
  unfold comparison_sign in Hsign.
  destruct (N.eqb_spec operator Equal) as [->|_];
    [injection Hsign as <-; reflexivity|].
  destruct (N.eqb_spec operator NotEqual) as [->|_];
    [injection Hsign as <-; reflexivity|].
  destruct (N.eqb_spec operator Less) as [->|_];
    [injection Hsign as <-; reflexivity|].
  destruct (N.eqb_spec operator LessOrEqual) as [->|_];
    [injection Hsign as <-; reflexivity|].
  destruct (N.eqb_spec operator Greater) as [->|_];
    [injection Hsign as <-; reflexivity|].
  destruct (N.eqb_spec operator GreaterOrEqual) as [->|_];
    [injection Hsign as <-; reflexivity|].
  discriminate.
Qed.

(** X6. A condition object with a non-null [value] whose [operator] is set
    but is none of the seven operators binds [value] and emits no fragment:
    the parameter stays in the list with no placeholder referring to it. *)
Theorem unknown_operator_binds_without_fragment where_ col props acc :
  lookup_prop where_ col = JObj props ->
  not_nullish (lookup_prop props "value") = true ->
  not_nullish (lookup_prop props "operator") = true ->
  unknown_operator (lookup_prop props "operator") = true ->
  where_step esc where_ acc col =
  Return {| w_params := w_params acc ++ [lookup_prop props "value"];
            w_conditions := w_conditions acc |}.
Proof.
  intros Hw Hv Ho Hunk.
  rewrite (where_step_object esc where_ acc col props Hw), Hv, Ho.
  cbn [andb]. unfold where_dispatch. cbn [get_prop bind].
  unfold unknown_operator in Hunk. cbn [existsb] in Hunk.
  apply negb_true_iff in Hunk.
  repeat (apply orb_false_iff in Hunk; destruct Hunk as [?H Hunk]).
  repeat match goal with
         | H : strict_eq_int _ _ = false |- _ => rewrite H; clear H
         end.
  reflexivity.
Qed.

Lemma where_step_plain where_ acc k :
  is_plain (lookup_prop where_ k) = true ->
  where_step esc where_ acc k =
  Return {| w_params := w_params acc ++ [lookup_prop where_ k];
            w_conditions := w_conditions acc ++
              [esc k +:+ " = " +:+ placeholder (S (length (w_params acc)))] |}.
Proof.
  unfold is_plain, where_step, is_condition. intros H.
  apply negb_true_iff in H. rewrite H. cbn [bind].
  unfold push_condition, push_param. cbn [w_params w_conditions].
  rewrite length_app. cbn [length]. rewrite Nat.add_1_r. reflexivity.
Qed.

Lemma where_loop_plain where_ keys : forall acc,
  Forall (fun k => is_plain (lookup_prop where_ k) = true) keys ->
  where_loop esc where_ keys acc =
  Return {| w_params := w_params acc ++ map (lookup_prop where_) keys;
            w_conditions := w_conditions acc ++
              set_assignments esc keys
                (map placeholder (seq (S (length (w_params acc))) (length keys))) |}.
Proof.
  induction keys as [|k keys IH]; intros acc Hall.
  - destruct acc. cbn. rewrite !app_nil_r. reflexivity.
  - inversion Hall as [|? ? Hk Hrest]; subst.
    cbn [where_loop]. rewrite (where_step_plain where_ acc k Hk). cbn [bind].
    rewrite (IH _ Hrest). cbn [w_params w_conditions].
    rewrite length_app. cbn [length map seq set_assignments].
    rewrite Nat.add_1_r, <- !app_assoc. reflexivity.
Qed.

(** X7. A WHERE clause whose values are all plain (numbers, strings,
    booleans, [undefined]) binds them in order and compares the [i]-th
    column with the next placeholder: [$1], [$2], ... in [delete], and in
    [update] the placeholders that follow those of the SET list, the
    parameters being the SET parameters followed by the WHERE values. *)
Theorem plain_where_is_numbered_after_set tableName values where_ :
  Forall (fun k => is_plain (lookup_prop where_ k) = true) (own_keys where_) ->
  let n := length (own_keys where_) in
  delete esc tableName (Some where_) None =
    Return ("DELETE FROM " +:+ esc tableName +:+ " WHERE " +:+
            join ", " (set_assignments esc (own_keys where_)
                         (map placeholder (seq 1 n))),
            column_values where_) /\
  (null_free values ->
   let M := length (bound_values (column_values values)) in
   update esc tableName values (Some where_) None =
     Return (update_text esc tableName (own_keys values)
               (value_entries 0 (column_values values)) +:+ " WHERE " +:+
             join ", " (set_assignments esc (own_keys where_)
                          (map placeholder (seq (S M) n))),
             bound_values (column_values values) ++ column_values where_)).
Proof.
  intros Hplain n. split.
  - rewrite delete_shape, (where_loop_plain where_ _ _ Hplain). cbn [bind].
    cbn [w_params w_conditions app length]. unfold where_text, returning_text.
    cbn [upd_returning_of]. rewrite append_nil_r. reflexivity.
  - intros Hnull M.
    rewrite (update_shape esc tableName values (Some where_) None Hnull).
    rewrite (where_loop_plain where_ _ _ Hplain). cbn [bind].
    cbn [w_params w_conditions app]. unfold where_text, returning_text.
    cbn [upd_returning_of]. rewrite append_nil_r. reflexivity.
Qed.

Lemma where_loop_null where_ keys : forall acc,
  Exists (fun k => lookup_prop where_ k = JNull) keys ->
  where_loop esc where_ keys acc = Throw TypeError.
Proof.
  induction keys as [|k keys IH]; intros acc Hex.
  - inversion Hex.
  - cbn [where_loop].
    destruct (lookup_prop where_ k) eqn:Hk;
      try (destruct (where_step_returns esc where_ acc k) as [acc' Hacc'];
           [rewrite Hk; discriminate|];
           rewrite Hacc'; cbn [bind]; apply IH;
           inversion Hex as [? ? Hnull|? ? Hrest]; subst;
           [rewrite Hk in Hnull; discriminate | exact Hrest]).
    unfold where_step, is_condition. rewrite Hk. reflexivity.
Qed.

Lemma update_loop_outcomes values keys : forall acc,
  update_loop esc values keys acc = Throw TypeError \/
  exists acc', update_loop esc values keys acc = Return acc'.
Proof.
  induction keys as [|k keys IH]; intros acc; [right; eexists; reflexivity|].
  cbn [update_loop]. unfold update_step. rewrite raw_marker_cases.
  destruct (lookup_prop values k); cbn [bind]; try (left; reflexivity);
    match goal with
    | |- context [match ?r with Some _ => _ | None => _ end] => destruct r
    end; cbn [bind]; apply IH.
Qed.

(** X8. A WHERE clause yields its fragments when none of its entries is
    [null]; as soon as one entry is [null], [delete] and [update] throw a
    TypeError, whatever else they are given. *)
Theorem where_fails_exactly_on_null tableName values where_ options :
  (null_free where_ ->
     exists r, delete esc tableName (Some where_) options = Return r) /\
  (has_null where_ ->
     delete esc tableName (Some where_) options = Throw TypeError /\
     update esc tableName values (Some where_) options = Throw TypeError).
Proof.
  split.
  - intros Hnull.
    destruct (where_loop_returns esc where_ (own_keys where_)
                {| w_params := []; w_conditions := [] |} Hnull) as [last Hlast].
    rewrite delete_shape, Hlast. eexists. reflexivity.
  - intros Hex. split.
    + rewrite delete_shape, where_loop_null by assumption. reflexivity.
    + unfold update.
      destruct (update_loop_outcomes values (own_keys values)
                  {| u_params := []; u_columnValues := [] |}) as [H|[acc H]];
        rewrite H; cbn [bind]; [reflexivity|].
      unfold addWhereToSQL. rewrite where_loop_null by assumption. reflexivity.
Qed.

Lemma where_step_grows where_ acc k acc' :
  where_step esc where_ acc k = Return acc' ->
  exists added conds,
    w_params acc' = w_params acc ++ added /\
    w_conditions acc' = w_conditions acc ++ conds /\
    1 <= length added <= 2 /\ length conds <= 1.
Proof.
  unfold where_step, is_condition, where_dispatch, push_condition, push_param.
  destruct (lookup_prop where_ k) as [| | b | n | z | s | props | elems];
    cbn; try discriminate;
    try (intros [= <-]; eexists [_]; eexists [_]; cbn; repeat split; lia).
  destruct (not_nullish (lookup_prop props "value")); cbn;
    [|intros [= <-]; eexists [_]; eexists [_]; cbn; repeat split; lia].
  destruct (not_nullish (lookup_prop props "operator")); cbn;
    [|intros [= <-]; eexists [_]; eexists [_]; cbn; repeat split; lia].
  repeat match goal with
         | |- context [if ?c then _ else _] => destruct c
         end;
    intros [= <-]; cbn [w_params w_conditions];
    first [ eexists [_]; eexists [_]; cbn; repeat split; lia
          | eexists [_; _]; eexists [_]; cbn;
            rewrite <- app_assoc; repeat split; lia
          | eexists [_]; exists []; cbn; rewrite app_nil_r; repeat split; lia ].
Qed.

(** X9. Going through a WHERE clause only ever adds to the parameter list
    and to the fragments: what was bound before (the SET parameters in
    [update]) stays in front unchanged, every entry binds one or two
    parameters and emits at most one fragment. *)
Theorem where_loop_only_appends where_ keys : forall acc last,
  where_loop esc where_ keys acc = Return last ->
  exists added conds,
    w_params last = w_params acc ++ added /\
    w_conditions last = w_conditions acc ++ conds /\
    length keys <= length added <= 2 * length keys /\
    length conds <= length keys.
Proof.
  induction keys as [|k keys IH]; intros acc last H.
  - injection H as <-. exists [], []. rewrite !app_nil_r. cbn. repeat split; lia.
  - cbn [where_loop] in H.
    destruct (where_step esc where_ acc k) as [acc1|e] eqn:Hstep; [|discriminate].
    cbn [bind] in H.
    destruct (where_step_grows where_ acc k acc1 Hstep)
      as (a1 & c1 & Hp1 & Hc1 & Ha1 & Hl1).
    destruct (IH acc1 last H) as (a2 & c2 & Hp2 & Hc2 & Ha2 & Hl2).
    exists (a1 ++ a2), (c1 ++ c2).
    rewrite Hp2, Hp1, Hc2, Hc1, <- !app_assoc, !length_app. cbn [length].
    repeat split; lia.
Qed.

(** X10. Empty inputs are written out as they are: an empty WHERE object
    leaves a bare [" WHERE "] at the end of the text while no WHERE clause
    leaves none, an empty mapping gives [INSERT INTO t () VALUES ()] and
    [UPDATE t SET ], and an empty [returning] list a bare [" RETURNING "];
    nothing is bound in any of them. *)
Theorem empty_inputs_are_written_out tableName :
  delete esc tableName (Some []) None =
    Return ("DELETE FROM " +:+ esc tableName +:+ " WHERE ", []) /\
  delete esc tableName None None =
    Return ("DELETE FROM " +:+ esc tableName, []) /\
  insert esc tableName [] None =
    Return ("INSERT INTO " +:+ esc tableName +:+ " () VALUES ()", []) /\
  update esc tableName [] None None =
    Return ("UPDATE " +:+ esc tableName +:+ " SET ", []) /\
  delete esc tableName None (Some {| upd_returning := Some [] |}) =
    Return ("DELETE FROM " +:+ esc tableName +:+ " RETURNING ", []).
Proof.
  repeat split; cbn; unfold join; cbn [String.concat];
    rewrite ?append_assoc, ?append_nil_r; reflexivity.
Qed.

End Where.

Lemma comparison_binds_one_parameter_witness :
  where_step quoted [("age", condition (JInt 18) GreaterOrEqual None)]
    {| w_params := [JStr "x"]; w_conditions := [] |} "age" =
  Return {| w_params := [JStr "x"; JInt 18];
            w_conditions := [quoted "age" +:+ " >= $2"] |}.
Proof.
  exact (comparison_binds_one_parameter quoted
           [("age", condition (JInt 18) GreaterOrEqual None)] "age" _
           {| w_params := [JStr "x"]; w_conditions := [] |} GreaterOrEqual ">="
           eq_refl eq_refl eq_refl eq_refl).
Defined.

Lemma unknown_operator_binds_without_fragment_witness :
  where_step quoted [("n", seven_unknown)]
    {| w_params := []; w_conditions := [] |} "n" =
  Return {| w_params := [JInt 10]; w_conditions := [] |}.
Proof.
  exact (unknown_operator_binds_without_fragment quoted [("n", seven_unknown)] "n" _
           {| w_params := []; w_conditions := [] |}
           eq_refl eq_refl eq_refl eq_refl).
Defined.

Lemma plain_where_is_numbered_after_set_witness :
  null_free users_row /\
  update quoted "t" users_row (Some plain_where) None =
  Return ("UPDATE " +:+ quoted "t" +:+ " SET " +:+
          join ", " [quoted "id" +:+ " = $1"; quoted "name" +:+ " = $2"] +:+
          " WHERE " +:+
          join ", " [quoted "a" +:+ " = $3"; quoted "b" +:+ " = $4";
                     quoted "c" +:+ " = $5"],
          [JInt 1; JStr "Bo"; JInt 1; JStr "x"; JUndefined]).
Proof.
  assert (Hnull : null_free users_row) by (repeat constructor; discriminate).
  split; [exact Hnull|].
  exact (proj2 (plain_where_is_numbered_after_set quoted "t" users_row plain_where
                  ltac:(repeat constructor)) Hnull).
Defined.

Lemma where_fails_exactly_on_null_witness :
  has_null [("a", JInt 1); ("gone", JNull)] /\
  delete quoted "t" (Some [("a", JInt 1); ("gone", JNull)]) None = Throw TypeError.
Proof.
  assert (Hex : has_null [("a", JInt 1); ("gone", JNull)]).
  { apply Exists_cons_tl. apply Exists_cons_hd. reflexivity. }
  split; [exact Hex|].
  exact (proj1 (proj2 (where_fails_exactly_on_null quoted "t" [] _ None) Hex)).
Defined.

Lemma where_loop_only_appends_witness :
  exists added conds,
    [JInt 5; JInt 10; JInt 20] = [JInt 5] ++ added /\
    [quoted "id" +:+ " BETWEEN $2 AND $3"] = [] ++ conds /\
    1 <= length added <= 2 * 1 /\ length conds <= 1.
Proof.
  exact (where_loop_only_appends quoted between_10_20 ["id"]
           {| w_params := [JInt 5]; w_conditions := [] |}
           {| w_params := [JInt 5; JInt 10; JInt 20];
              w_conditions := [quoted "id" +:+ " BETWEEN $2 AND $3"] |}
           eq_refl).
Defined.


Lemma insert_fails_exactly_on_null_witness :
  null_free three_columns /\
  (exists r, insert quoted "t" three_columns None = Return r) /\
  (exists r, update quoted "t" three_columns None None = Return r).
Proof.
  assert (Hnull : null_free three_columns) by (repeat constructor; discriminate).
  split; [exact Hnull|].
  exact (proj1 (insert_fails_exactly_on_null quoted "t" three_columns None []
                  (or_introl eq_refl)) Hnull).
Defined.

Lemma bound_values_never_reach_the_text_witness :
  null_free users_row /\
  null_free [("id", JInt 2); ("name", JStr "x'); DROP TABLE users; --")] /\
  exists sql,
    insert quoted "users" users_row None = Return (sql, [JInt 1; JStr "Bo"]) /\
    insert quoted "users" [("id", JInt 2); ("name", JStr "x'); DROP TABLE users; --")]
      None =
      Return (sql, [JInt 2; JStr "x'); DROP TABLE users; --"]).
Proof.
  assert (H1 : null_free users_row) by (repeat constructor; discriminate).
  assert (H2 : null_free [("id", JInt 2); ("name", JStr "x'); DROP TABLE users; --")])
    by (repeat constructor; discriminate).
  split; [exact H1|]. split; [exact H2|].
  destruct (bound_values_never_reach_the_text quoted "users" users_row
              [("id", JInt 2); ("name", JStr "x'); DROP TABLE users; --")]
              None [] H1 H2 (or_introl eq_refl) eq_refl eq_refl)
    as (sql & Ha & Hb & _).
  exists sql. split; assumption.
Defined.

Lemma conflict_action_needs_keys_witness :
  insert quoted "users" users_row
    (Some {| conflictAction := Some "ignore"; conflictKeys := None;
             returning := None |}) = Throw TypeError.
Proof.
  apply conflict_action_needs_keys; [discriminate | reflexivity | discriminate].
Defined.

Lemma unrecognised_conflict_action_is_ignored_witness :
  insert quoted "users" users_row (Some (on_conflict "replace" ["id"])) =
  insert quoted "users" users_row
    (Some (without_conflict (on_conflict "replace" ["id"]))).
Proof.
  apply unrecognised_conflict_action_is_ignored; discriminate.
Defined.

End BuilderMoreFacts.

(** * Further properties of the decoders *)

Module ParserMoreFacts.

Import Parser ParserMore ParserFacts.

(** X11. [parseDbInteger] gives back the integer whose decimal text it is
    given, as a number, for every integer of absolute value up to
    [2^53 - 1], which covers the 16-bit and 32-bit columns it decodes. *)
Theorem parseDbInteger_reads_decimal_text (z : Z) :
  (Z.abs z <= 9007199254740991)%Z ->
  parseDbInteger (Some (decimal_text z)) =
  ([(ParseInt, Some (decimal_text z))],
   Return (DVal (JNum (Finite (z <? 0)%Z (Z.abs_N z))))).
Proof.
  intros Hz. unfold parseDbInteger, call. do 4 f_equal.
  destruct z as [|p|p]; [reflexivity|..]; cbn [decimal_text].
  - rewrite parseInt10_positive.
    apply to_double_small. unfold MAX_SAFE_INTEGER. lia.
  - rewrite parseInt10_negative.
    apply to_double_small. unfold MAX_SAFE_INTEGER. lia.
Qed.

Lemma parseDbInteger_reads_decimal_text_witness :
  parseDbInteger (Some "-2147483648") =
  ([(ParseInt, Some "-2147483648")],
   Return (DVal (JNum (Finite true 2147483648)))).
Proof.
  apply (parseDbInteger_reads_decimal_text (-2147483648)). cbn. lia.
Defined.

(** X12. [parseDbBool] never throws and calls nothing; it gives [true]
    exactly for the seven texts [TRUE], [t], [true], [y], [yes], [on], [1],
    as they are written, and [false] for every other text. *)
Theorem parseDbBool_true_exactly_on_seven_texts (txt : string) :
  exists b,
    parseDbBool (Some txt) = ([], Return (DVal (JBool b))) /\
    (b = true <-> In txt true_texts).
Proof.
  unfold parseDbBool, ret, true_texts. eexists. split; [reflexivity|].
  cbn [In].
  repeat match goal with
         | |- context [String.eqb txt ?s] => destruct (String.eqb_spec txt s)
         end; cbn; split; intros H; auto 10; try discriminate;
    repeat (destruct H as [H|H]; try (symmetry in H; contradiction));
    contradiction.
Qed.

Lemma parseDbBool_true_exactly_on_seven_texts_witness :
  In "yes" true_texts /\
  exists b, parseDbBool (Some "yes") = ([], Return (DVal (JBool b))) /\ b = true.
Proof.
  assert (Hin : In "yes" true_texts) by (cbn; auto 10).
  split; [exact Hin|].
  destruct (parseDbBool_true_exactly_on_seven_texts "yes") as (b & Hb & Hiff).
  exists b. split; [exact Hb | exact (proj2 Hiff Hin)].
Defined.




Lemma getTypeParser_setTypeParser o f parseFn r oid format :
  getTypeParser (setTypeParser o f parseFn r) oid format =
  if Z.eqb o oid && format_eqb f format then Some parseFn
  else getTypeParser r oid format.
Proof.
  destruct f, format; cbn [setTypeParser getTypeParser text_parsers binary_parsers
                            format_eqb]; rewrite ?andb_false_r, ?andb_true_r;
    try reflexivity;
    destruct (Z.eqb_spec o oid) as [->|Hne];
    [apply lookup_insert_eq | apply lookup_insert_ne; exact Hne
    |apply lookup_insert_eq | apply lookup_insert_ne; exact Hne].
Qed.

Lemma getTypeParser_fold l : forall r oid format,
  getTypeParser
    (fold_left (fun acc '(o, f, parseFn) => setTypeParser o f parseFn acc) l r)
    oid format =
  match registered_in l oid format with
  | Some parseFn => Some parseFn
  | None => getTypeParser r oid format
  end.
Proof.
  induction l as [|[[o f] parseFn] l IH]; intros r oid format; [reflexivity|].
  cbn [fold_left registered_in]. rewrite IH.
  destruct (registered_in l oid format); [reflexivity|].
  rewrite getTypeParser_setTypeParser.
  destruct (Z.eqb o oid && format_eqb f format); reflexivity.
Qed.

(** X14. The first [registerParsers] fills every slot it names with its
    decoder, whatever was there before, no slot being named twice, and
    leaves every other slot of the registry, such as the text slot of
    BYTEA, as it was. *)
Theorem registerParsers_fills_its_slots_only (r : Registry) :
  initialized r = false ->
  Forall (fun '(oid, format, parseFn) =>
            getTypeParser (registerParsers r) oid format = Some parseFn)
         registrations /\
  (forall oid format,
     registered_in registrations oid format = None ->
     getTypeParser (registerParsers r) oid format = getTypeParser r oid format) /\
  getTypeParser (registerParsers r) BYTEA text = getTypeParser r BYTEA text.
Proof.
  intros Hinit.
  assert (Hlook : forall oid format,
            getTypeParser (registerParsers r) oid format =
            match registered_in registrations oid format with
            | Some parseFn => Some parseFn
            | None => getTypeParser r oid format
            end).
  { intros oid format. unfold registerParsers. rewrite Hinit.
    rewrite <- getTypeParser_fold. destruct format; reflexivity. }
  split; [|split].
  - unfold registrations.
    repeat (apply Forall_cons; split; [rewrite Hlook; reflexivity|]).
    apply Forall_nil. exact I.
  - intros oid format Hnone. rewrite Hlook, Hnone. reflexivity.
  - rewrite Hlook. reflexivity.
Qed.

Lemma registerParsers_fills_its_slots_only_witness :
  initialized blank = false /\
  getTypeParser (registerParsers blank) BYTEA text = None.
Proof.
  split; [reflexivity|].
  exact (proj2 (proj2 (registerParsers_fills_its_slots_only blank eq_refl))).
Defined.

End ParserMoreFacts.

(** * Properties of the connection manager *)

Module ManagerFacts.

Import Parser Manager.

(** X15. [isNetworkError] never throws, not even on [null] or [undefined],
    and answers [true] exactly for an object whose [code] is one of the
    strings ECONNREFUSED, ECONNRESET, ECONNABORTED, EHOSTUNREACH and
    EHOSTDOWN. *)
Theorem isNetworkError_total_and_exact (err : JsVal) :
  exists b,
    isNetworkError err = Return b /\
    (b = true <->
     exists props c,
       err = JObj props /\ lookup_prop props "code" = JStr c /\ In c network_codes).
Proof.
  assert (Hno : forall v, (forall props, v <> JObj props) ->
            ~ exists props c, v = JObj props /\
                lookup_prop props "code" = JStr c /\ In c network_codes).
  { intros v Hv (props & c & Heq & _). exact (Hv props Heq). }
  unfold isNetworkError.
  destruct err as [| | b | n | z | s | props | elems];
    try (exists false; split;
         [ reflexivity
         | split; [discriminate | intros H; exfalso; revert H; apply Hno; discriminate] ]).
  - destruct b; exists false; (split; [reflexivity|]);
      (split; [discriminate | intros H; exfalso; revert H; apply Hno; discriminate]).
  - destruct (truthy (JNum n)); exists false; (split; [reflexivity|]);
      (split; [discriminate | intros H; exfalso; revert H; apply Hno; discriminate]).
  - destruct (truthy (JBigInt z)); exists false; (split; [reflexivity|]);
      (split; [discriminate | intros H; exfalso; revert H; apply Hno; discriminate]).
  - destruct s; exists false; (split; [reflexivity|]);
      (split; [discriminate | intros H; exfalso; revert H; apply Hno; discriminate]).
  - cbn [truthy get_prop bind].
    destruct (lookup_prop props "code") as [| | b | n | z | c | ps | es] eqn:Hcode;
      try (exists false; split; [reflexivity|]; split; [discriminate|];
           intros (props' & c' & Heq & Hc & _); injection Heq as <-;
           rewrite Hcode in Hc; discriminate).
    exists (existsb (String.eqb c) network_codes). split; [reflexivity|].
    rewrite existsb_exists. split.
    + intros (x & Hin & Heq). apply String.eqb_eq in Heq. subst x.
      exists props, c. repeat split; assumption.
    + intros (props' & c' & Heq & Hc & Hin). injection Heq as <-.
      rewrite Hcode in Hc. injection Hc as <-.
      exists c. split; [exact Hin | apply String.eqb_refl].
Qed.

Lemma isNetworkError_total_and_exact_witness :
  exists b, isNetworkError refused = Return b /\ b = true.
Proof.
  destruct (isNetworkError_total_and_exact refused) as (b & Hb & Hiff).
  exists b. split; [exact Hb|].
  apply (proj2 Hiff). exists [("code", JStr "ECONNREFUSED")], "ECONNREFUSED".
  split; [reflexivity|]. split; [reflexivity|]. left. reflexivity.
Defined.

(** X16. The constructor throws when it is given no options. Without
    [usePool] the pool is capped at 2 clients whatever [maxConnections]
    says; with [usePool] a [maxConnections] that is absent, [0] or NaN means
    100, and an absent or empty [host] and an absent or zero [port] mean
    127.0.0.1 and 5432. Every construction runs [registerParsers], so that a
    second manager leaves the registry as the first left it. *)
Theorem construct_defaults (o : ManagerOptions) (registry : Registry) :
  construct None registry = Throw missing_options /\
  (exists config,
     construct (Some o) registry =
       Return (config, negb (bool_decide (usePool o = Some true)),
               registerParsers registry) /\
     (usePool o <> Some true -> cfg_max config = number 2) /\
     (usePool o = Some true ->
      (maxConnections o = None \/
       exists n, maxConnections o = Some n /\ truthy_number n = false) ->
      cfg_max config = number 100) /\
     (usePool o = Some true ->
      forall n, maxConnections o = Some n -> truthy_number n = true ->
      cfg_max config = n) /\
     (host o = None \/ host o = Some EmptyString -> cfg_host config = "127.0.0.1") /\
     (port o = None \/ port o = Some (number 0) -> cfg_port config = number 5432) /\
     forall o' config' single' registry',
       construct (Some o') (registerParsers registry) =
         Return (config', single', registry') ->
       registry' = registerParsers registry).
Proof.
  split; [reflexivity|].
  eexists. split.
  { unfold construct. do 3 f_equal.
    destruct (usePool o) as [[|]|]; reflexivity. }
  cbn [cfg_max cfg_host cfg_port].
  split; [|split; [|split; [|split; [|split]]]].
  - intros H. destruct (usePool o) as [[|]|]; congruence.
  - intros -> [->|(n & -> & ->)]; reflexivity.
  - intros -> n -> ->. reflexivity.
  - intros [->| ->]; reflexivity.
  - intros [->| ->]; reflexivity.
  - intros o' config' single' registry' H. unfold construct in H.
    injection H as _ _ <-. apply ParserFacts.registerParsers_twice.
Qed.

Lemma construct_defaults_witness :
  usePool pooled_options = Some true /\
  exists config,
    construct (Some pooled_options) blank =
      Return (config, false, registerParsers blank) /\
    cfg_max config = number 100 /\
    cfg_host config = "127.0.0.1" /\
    cfg_port config = number 5432.
Proof.
  split; [reflexivity|].
  destruct (proj2 (construct_defaults pooled_options blank))
    as (config & Hc & _ & Hmax & _ & Hhost & Hport & _).
  exists config. split; [exact Hc|]. split; [|split].
  - apply Hmax; [reflexivity|]. right. exists (number 0). split; reflexivity.
  - apply Hhost. left. reflexivity.
  - apply Hport. right. reflexivity.
Defined.

Section WithPool.

Variable World : Type.
Variable pool_connect : World -> World * Outcome Client.
Variable client_release : Client -> JsVal -> World -> World * Outcome unit.
Variable pool_end : World -> World * Outcome unit.

Local Abbreviation getConnection := (Manager.getConnection World pool_connect).
Local Abbreviation releaseConnection :=
  (Manager.releaseConnection World client_release).
Local Abbreviation withConnection :=
  (Manager.withConnection World pool_connect client_release).
Local Abbreviation shutdown := (Manager.shutdown World client_release pool_end).
Local Abbreviation client_emits_end := (Manager.client_emits_end World).

(** X17. In single-connection mode, once [getConnection] has returned a
    connection it is kept, and the next [getConnection] returns the same
    one without asking the pool for anything. *)
Theorem single_connection_is_reused (st : State World) (c : Client) :
  usingSingleConnection st = true ->
  snd (getConnection st) = Return c ->
  singleConn (fst (getConnection st)) = Some c /\
  getConnection (fst (getConnection st)) = (fst (getConnection st), Return c).
Proof.
  unfold Manager.getConnection, connect. intros Hs. rewrite Hs. cbn [negb].
  destruct (singleConn st) as [c0|] eqn:Hc.
  - cbn [fst snd]. intros [= <-]. rewrite Hs, Hc. split; reflexivity.
  - destruct (pool st); [|discriminate].
    destruct (pool_connect (world st)) as [w [client|e]]; cbn [fst snd];
      [|discriminate].
    intros [= <-]. cbn [usingSingleConnection asked singleConn]. rewrite Hs.
    split; reflexivity.
Qed.

(** X18. [withConnection] runs the callback only when a connection was
    obtained. When the callback returns, the connection is released with no
    error and the result handed back; when it throws, the connection is
    released with the error thrown, which is then thrown again unless the
    release itself throws: then the error of the release is what the caller
    gets. *)
Theorem withConnection_outcomes {R} (cb : Client -> State World -> State World * Outcome R)
    (st : State World) :
  let got := getConnection st in
  (forall e, snd got = Throw e -> withConnection cb st = (fst got, Throw e)) /\
  (forall conn res,
     snd got = Return conn ->
     snd (cb conn (fst got)) = Return res ->
     let released := releaseConnection conn JUndefined (fst (cb conn (fst got))) in
     snd released = Return tt ->
     withConnection cb st = (fst released, Return res)) /\
  (forall conn err,
     snd got = Return conn ->
     snd (cb conn (fst got)) = Throw err ->
     let released :=
       releaseConnection conn (error_value err) (fst (cb conn (fst got))) in
     withConnection cb st =
       (fst released,
        match snd released with
        | Return _ => Throw err
        | Throw e => Throw e
        end)).
Proof.
  cbn zeta. unfold Manager.withConnection.
  destruct (getConnection st) as [st1 [conn|e]]; cbn [fst snd].
  - split; [discriminate|]. split.
    + intros conn' res [= <-] Hcb Hrel.
      destruct (cb conn st1) as [st2 r]. cbn [fst snd] in *. subst r.
      destruct (releaseConnection conn JUndefined st2) as [st3 rel].
      cbn [fst snd] in *. subst rel. reflexivity.
    + intros conn' err [= <-] Hcb.
      destruct (cb conn st1) as [st2 r]. cbn [fst snd] in *. subst r.
      unfold release_and_rethrow.
      destruct (releaseConnection conn (error_value err) st2) as [st3 [u|e]];
        reflexivity.
  - split; [intros e' [= <-]; reflexivity|]. split; discriminate.
Qed.

(** X19. In single-connection mode a [withConnection] whose callback
    returns asks nothing of the pool on release and leaves the manager as
    the callback left it, the connection staying the current one. One whose
    callback throws a value that counts as true forgets the connection and
    releases its client to the pool with that value, so that the next
    [getConnection] asks the pool for a new client. *)
Theorem single_mode_keeps_or_drops {R}
    (cb : Client -> State World -> State World * Outcome R)
    (st st2 : State World) (conn : Client) (r : Outcome R) :
  snd (getConnection st) = Return conn ->
  cb conn (fst (getConnection st)) = (st2, r) ->
  usingSingleConnection st2 = true ->
  (forall res, r = Return res -> withConnection cb st = (st2, Return res)) /\
  (forall err, r = Throw err -> truthy (error_value err) = true ->
     let after := fst (withConnection cb st) in
     singleConn after = None /\
     events after = events st2 ++ [Release conn (error_value err)] /\
     (pool st2 = true ->
      events (fst (getConnection after)) = events after ++ [Connect])).
Proof.
  intros Hgot Hcb Hs. unfold Manager.withConnection.
  destruct (getConnection st) as [st1 c]. cbn [fst snd] in *. subst c.
  rewrite Hcb. split.
  - intros res ->. unfold Manager.releaseConnection. rewrite Hs. reflexivity.
  - intros err -> Htruthy. lazy zeta.
    unfold release_and_rethrow, Manager.releaseConnection. rewrite Hs, Htruthy.
    unfold release_client. cbn [world set_singleConn].
    destruct (client_release conn (error_value err) (world st2)) as [w [u|e]];
      cbn [fst asked singleConn events set_singleConn];
      (split; [reflexivity|]); (split; [reflexivity|]);
      intros Hpool; unfold Manager.getConnection, connect;
      cbn [usingSingleConnection singleConn pool world asked set_singleConn];
      rewrite Hs, Hpool; cbn [negb];
      destruct (pool_connect w) as [w' [client|e']]; reflexivity.
Qed.

(** X20. After [shutdown] the manager has neither pool nor connection;
    [getConnection] then throws a TypeError in either mode, and a second
    [shutdown] asks nothing more of anyone. *)
Theorem shutdown_is_final (st : State World) :
  let down := shutdown st in
  pool down = false /\
  singleConn down = None /\
  usingSingleConnection down = usingSingleConnection st /\
  getConnection down = (down, Throw TypeError) /\
  shutdown down = down.
Proof.
  cbn zeta.
  assert (Hdown : pool (shutdown st) = false /\ singleConn (shutdown st) = None /\
                  usingSingleConnection (shutdown st) = usingSingleConnection st).
  { unfold Manager.shutdown, Manager.releaseConnection, release_client.
    destruct (singleConn st) as [c|] eqn:Hc;
      cbn [usingSingleConnection set_singleConn world];
      [destruct (usingSingleConnection st) eqn:Hs; cbn [truthy shutting_down];
       destruct (client_release c shutting_down (world st)) as [w r];
       cbn [fst asked pool set_singleConn singleConn world usingSingleConnection events]|];
      destruct (pool st) eqn:Hp;
      try destruct (pool_end _) as [w' r'];
      cbn [pool singleConn usingSingleConnection asked set_singleConn];
      repeat split; try assumption; try reflexivity; congruence. }
  destruct Hdown as (Hp & Hc & Hs).
  split; [exact Hp|]. split; [exact Hc|]. split; [exact Hs|]. split.
  - unfold Manager.getConnection, connect. rewrite Hc, Hp.
    destruct (usingSingleConnection (shutdown st)); reflexivity.
  - unfold Manager.shutdown at 1. rewrite Hc, Hp. reflexivity.
Qed.

Lemma getConnection_single_fresh (st : State World) (c : Client) (w : World) :
  usingSingleConnection st = true ->
  pool st = true ->
  singleConn st = None ->
  pool_connect (world st) = (w, Return c) ->
  getConnection st =
  ({| world := w; events := events st ++ [Connect]; pool := pool st;
      singleConn := Some c; usingSingleConnection := usingSingleConnection st;
      end_handlers := end_handlers st ++ [c] |}, Return c).
Proof.
  intros Hs Hp Hc Hw. unfold Manager.getConnection, connect.
  rewrite Hs, Hp, Hc, Hw.
  cbn [negb asked world events pool usingSingleConnection end_handlers].
  rewrite ?Hs, ?Hp. reflexivity.
Qed.

Lemma releaseConnection_single_error (st : State World) (c : Client) (err : JsVal)
    (w : World) (r : Outcome unit) :
  usingSingleConnection st = true ->
  truthy err = true ->
  client_release c err (world st) = (w, r) ->
  releaseConnection c err st =
  ({| world := w; events := events st ++ [Release c err]; pool := pool st;
      singleConn := None; usingSingleConnection := usingSingleConnection st;
      end_handlers := end_handlers st |}, r).
Proof.
  intros Hs Herr Hw. unfold Manager.releaseConnection, release_client.
  rewrite Hs, Herr. cbn [world set_singleConn]. rewrite Hw.
  unfold asked, set_singleConn.
  cbn [world events pool singleConn usingSingleConnection end_handlers].
  rewrite ?Hs. reflexivity.
Qed.

(** X21. The handler put on a client for ["end"] forgets whatever
    connection is current when it runs. In single-connection mode, after a
    first client was released with an error and a second one obtained, the
    ["end"] of the first makes the manager forget the second, which it has
    not released; the next [getConnection] asks the pool for a third. *)
Theorem end_of_old_client_forgets_new_connection
    (st : State World) (c1 c2 : Client) (err : JsVal) (w1 w2 w3 : World)
    (r : Outcome unit) :
  usingSingleConnection st = true ->
  pool st = true ->
  singleConn st = None ->
  pool_connect (world st) = (w1, Return c1) ->
  truthy err = true ->
  client_release c1 err w1 = (w2, r) ->
  pool_connect w2 = (w3, Return c2) ->
  let first := fst (getConnection st) in
  let dropped := fst (releaseConnection c1 err first) in
  let second := fst (getConnection dropped) in
  let ended := client_emits_end c1 second in
  singleConn second = Some c2 /\
  singleConn ended = None /\
  events ended = events st ++ [Connect; Release c1 err; Connect] /\
  events (fst (getConnection ended)) =
    events st ++ [Connect; Release c1 err; Connect; Connect].
Proof.
  intros Hs Hp Hc Hc1 Herr Hrel Hc2. lazy zeta.
  rewrite (getConnection_single_fresh st c1 w1) by assumption. cbn [fst].
  rewrite (releaseConnection_single_error _ c1 err w2 r)
    by (cbn [usingSingleConnection world]; assumption).
  cbn [fst events pool usingSingleConnection end_handlers].
  rewrite (getConnection_single_fresh _ c2 w3)
    by (cbn [usingSingleConnection world pool singleConn];
        first [assumption | reflexivity]).
  cbn [fst events pool usingSingleConnection end_handlers singleConn].
  split; [reflexivity|].
  unfold Manager.client_emits_end. cbn [end_handlers].
  rewrite !existsb_app. cbn [existsb]. rewrite Nat.eqb_refl.
  rewrite !orb_true_r, ?orb_true_l.
  cbn [singleConn events pool usingSingleConnection world end_handlers].
  split; [reflexivity|]. split; [rewrite <- !app_assoc; reflexivity|].
  unfold Manager.getConnection, connect.
  cbn [singleConn events pool usingSingleConnection world end_handlers].
  rewrite Hs, Hp. cbn [negb].
  destruct (pool_connect w3) as [w4 [c3|e]];
    cbn [fst asked events]; rewrite <- !app_assoc; reflexivity.
Qed.

End WithPool.

Lemma single_connection_is_reused_witness :
  snd (getConnection nat counting_connect new_single) = Return 1 /\
  getConnection nat counting_connect
    (fst (getConnection nat counting_connect new_single)) =
  (fst (getConnection nat counting_connect new_single), Return 1).
Proof.
  split; [reflexivity|].
  exact (proj2 (single_connection_is_reused nat counting_connect new_single 1
                  eq_refl eq_refl)).
Defined.

Lemma withConnection_outcomes_witness :
  withConnection nat counting_connect quiet_release
    (fun conn st => (st, @Throw nat boom)) new_single =
  (fst (releaseConnection nat quiet_release 1 (error_value boom)
          (fst (getConnection nat counting_connect new_single))),
   Throw boom).
Proof.
  exact (proj2 (proj2
    (withConnection_outcomes nat counting_connect quiet_release
       (fun conn st => (st, @Throw nat boom)) new_single))
    1 boom eq_refl eq_refl).
Defined.

Lemma single_mode_keeps_or_drops_witness :
  withConnection nat counting_connect quiet_release
    (fun conn st => (st, Return conn)) new_single =
  (fst (getConnection nat counting_connect new_single), Return 1).
Proof.
  exact (proj1
    (single_mode_keeps_or_drops nat counting_connect quiet_release
       (fun conn st => (st, Return conn)) new_single _ 1 _
       eq_refl eq_refl eq_refl) 1 eq_refl).
Defined.

Lemma end_of_old_client_forgets_new_connection_witness :
  let first := fst (getConnection nat counting_connect new_single) in
  let dropped := fst (releaseConnection nat quiet_release 1 refused first) in
  let second := fst (getConnection nat counting_connect dropped) in
  singleConn second = Some 2 /\
  singleConn (client_emits_end nat 1 second) = None /\
  events (client_emits_end nat 1 second) =
    [] ++ [Connect; Release 1 refused; Connect].
Proof.
  destruct (end_of_old_client_forgets_new_connection nat counting_connect
              quiet_release new_single 1 2 refused 1 1 2 (Return tt)
              eq_refl eq_refl eq_refl eq_refl eq_refl eq_refl eq_refl)
    as (H1 & H2 & H3 & _).
  repeat split; assumption.
Defined.

End ManagerFacts.
